(** * whomi: the privacy-leak analyzer (src/lib/privacy/analyzer.ts)

    A shallow embedding of [PrivacyAnalyzer] and [PrivacyGraph] and the
    properties of the similarity engine, the three detectors, the scoring,
    the recommendations and the graph transform.

    Conventions of the embedding.
    - A JavaScript string is a Rocq [string]: a sequence of code units, here
      restricted to the 8-bit range (Latin-1).  [a.length] is
      [String.length], [a[i]] is [String.get].
    - A JavaScript number that holds a count or an index is a [nat]; the
      sub-scores and the score are [Z]; the similarity, a quotient, is an
      exact rational [Q].  The thresholds [0.7] and [0.5] are [7#10] and
      [1#2].  The last section compares this exact arithmetic with the
      binary64 arithmetic of the source.
    - A JavaScript [Map] keeps its keys in the order of first insertion:
      it is an association list with unique keys.
    - [arr.push(x)] is [arr ++ [x]]; [for] loops are folds over the index
      range. *)

From Stdlib Require Import QArith Qround Ascii Lia Lqa Floats.
From Stdlib Require String.
From stdpp Require Import list strings.

Local Open Scope nat_scope.

(** ** Strings *)

Module Str.

(** The code unit of the double quote, [U+0022]. *)
Definition dquote : ascii := Ascii.ascii_of_nat 34.

(** The code unit of the colon, [U+003A]. *)
Definition colon : ascii := Ascii.ascii_of_nat 58.

Definition chars (s : string) : list ascii := String.list_ascii_of_string s.

(** [String.prototype.toLowerCase] on one code unit of the Latin-1 range:
    [A-Z] and [U+00C0-U+00DE] without the multiplication sign [U+00D7]
    move up by 32. *)
Definition lowerChar (c : ascii) : ascii :=
  let n := Ascii.nat_of_ascii c in
  if ((65 <=? n) && (n <=? 90))
     || ((192 <=? n) && (n <=? 222) && negb (n =? 215))
  then Ascii.ascii_of_nat (n + 32) else c.

Fixpoint toLowerCase (s : string) : string :=
  match s with
  | EmptyString => EmptyString
  | String c s' => String (lowerChar c) (toLowerCase s')
  end.

(** [s.split(sep)] for a one-character separator: the pieces between the
    separators, in order; a string without separator is its only piece. *)
Fixpoint split (sep : ascii) (s : string) : list string :=
  match s with
  | EmptyString => [EmptyString]
  | String c s' =>
      if decide (c = sep) then EmptyString :: split sep s'
      else match split sep s' with
           | piece :: rest => String c piece :: rest
           | [] => [String c EmptyString]
           end
  end.

(** Number of occurrences of a code unit. *)
Fixpoint count (c : ascii) (s : string) : nat :=
  match s with
  | EmptyString => 0
  | String c' s' => (if decide (c' = c) then 1 else 0) + count c s'
  end.

(** The longest prefix without double quote, and what follows it. *)
Fixpoint spanNoQuote (s : string) : string * string :=
  match s with
  | EmptyString => (EmptyString, EmptyString)
  | String c s' =>
      if decide (c = dquote) then (EmptyString, s)
      else let '(run, rest) := spanNoQuote s' in (String c run, rest)
  end.

(** The first capture of the leftmost match of the regular expression of
    [generateRecommendations]: a double quote, a group of one or more
    characters other than the double quote, a double quote.
    A match starts at a double quote, takes the longest run of other
    characters, which must not be empty, and needs a double quote right
    after it.  A shorter run is followed by a character that is no double
    quote, so backtracking inside one start position never succeeds; the
    next start position is tried instead. *)
Fixpoint matchQuoted (s : string) : option string :=
  match s with
  | EmptyString => None
  | String c s' =>
      if decide (c = dquote) then
        match spanNoQuote s' with
        | (String r run, String _ _) => Some (String r run)
        | _ => matchQuoted s'
        end
      else matchQuoted s'
  end.

(** A string in double quotes. *)
Definition quoted (s : string) : string :=
  String dquote (s +:+ String dquote EmptyString).

End Str.

(** ** Similarity engine: the Levenshtein matrix *)

(** The matrix of [calculateStringSimilarity]: rows of cells, a cell is
    [null] ([None]) until it is assigned. *)
Abbreviation Matrix := (list (list (option nat))).

(** [Array(rows).fill(null).map(() => Array(cols).fill(null))] *)
Definition newMatrix (rows cols : nat) : Matrix :=
  replicate rows (replicate cols None).

(** [matrix[i][j] = v].  Every assignment of the source is in range (see
    [levenshteinMatrix_filled]); out of range the model leaves the matrix
    as it is. *)
Definition mset (m : Matrix) (i j v : nat) : Matrix :=
  match m !! i with
  | Some row => <[i := <[j := Some v]> row]> m
  | None => m
  end.

(** [matrix[i][j]] read as a number; [null] counts as [0] in arithmetic. *)
Definition mget (m : Matrix) (i j : nat) : nat :=
  match m !! i with
  | Some row => match row !! j with Some (Some v) => v | _ => 0 end
  | None => 0
  end.

(** [a[i - 1] === b[j - 1] ? 0 : 1] *)
Definition cost (a b : string) (i j : nat) : nat :=
  if decide (String.get (i - 1) a = String.get (j - 1) b) then 0 else 1.

(** [Math.min(x, y, z)] *)
Definition min3 (x y z : nat) : nat := Nat.min (Nat.min x y) z.

(** [for (let i = 0; i <= a.length; i++) matrix[i][0] = i;] *)
Definition initColumn (la : nat) (m : Matrix) : Matrix :=
  foldl (fun m i => mset m i 0 i) m (seq 0 (S la)).

(** [for (let j = 0; j <= b.length; j++) matrix[0][j] = j;] *)
Definition initRow (lb : nat) (m : Matrix) : Matrix :=
  foldl (fun m j => mset m 0 j j) m (seq 0 (S lb)).

(** The body of the inner loop. *)
Definition fillCell (a b : string) (i : nat) (m : Matrix) (j : nat) : Matrix :=
  mset m i j (min3 (mget m (i - 1) j + 1)
                   (mget m i (j - 1) + 1)
                   (mget m (i - 1) (j - 1) + cost a b i j)).

(** [for (let j = 1; j <= b.length; j++) ...] *)
Definition fillRow (a b : string) (m : Matrix) (i : nat) : Matrix :=
  foldl (fillCell a b i) m (seq 1 (String.length b)).

(** [for (let i = 1; i <= a.length; i++) ...] *)
Definition fillMatrix (a b : string) (m : Matrix) : Matrix :=
  foldl (fillRow a b) m (seq 1 (String.length a)).

(** The matrix after the three loops, and [matrix[a.length][b.length]]. *)
Definition levenshteinMatrix (a b : string) : Matrix :=
  fillMatrix a b
    (initRow (String.length b)
       (initColumn (String.length a)
          (newMatrix (S (String.length a)) (S (String.length b))))).

Definition levenshteinDistance (a b : string) : nat :=
  mget (levenshteinMatrix a b) (String.length a) (String.length b).

(** [calculateStringSimilarity] *)
Definition calculateStringSimilarity (a b : string) : Q :=
  if decide (a = b) then 1%Q
  else if (String.length a =? 0) || (String.length b =? 0) then 0%Q
  else
    let distance := levenshteinDistance a b in
    let maxLength := Nat.max (String.length a) (String.length b) in
    (1 - inject_Z (Z.of_nat distance) / inject_Z (Z.of_nat maxLength))%Q.

(** [x > y] on numbers. *)
Definition gt_num (x y : Q) : bool := negb (Qle_bool x y).

(** ** Levenshtein distance, as specified *)

(** An edit script from [a] to [b] of a given cost: a deletion or an
    insertion costs one, a substitution costs one unless the characters
    agree. *)
Inductive edit : list ascii → list ascii → nat → Prop :=
  | edit_nil : edit [] [] 0
  | edit_del x a b n : edit a b n → edit (x :: a) b (S n)
  | edit_ins y a b n : edit a b n → edit a (y :: b) (S n)
  | edit_sub x y a b n :
      edit a b n → edit (x :: a) (y :: b) (n + if decide (x = y) then 0 else 1).

(** The textbook recursion for the Levenshtein distance. *)
Fixpoint lev (a b : list ascii) : nat :=
  match a with
  | [] => length b
  | x :: a' =>
      (fix lev_a (b : list ascii) : nat :=
         match b with
         | [] => length a
         | y :: b' =>
             min3 (lev a' b + 1) (lev_a b' + 1)
                  (lev a' b' + if decide (x = y) then 0 else 1)
         end) b
  end.

(** ** Data model (the [Persona] and [PrivacyWarning] interfaces) *)

Record PrivateData := {
  accounts : list string;
  signedProofs : list string;
  notes : string
}.

Record Persona := {
  id : string;
  publicKey : string;
  privateData : PrivateData;
  createdAt : string;
  isPublic : bool;
  name : string
}.

Inductive WarningType := account_overlap | username_reuse | metadata_similarity.

Inductive Severity := low | medium | high.

Record PrivacyWarning := {
  type : WarningType;
  description : string;
  severity : Severity;
  affectedPersonas : list string
}.

#[global] Instance WarningType_eq_dec : EqDecision WarningType.
Proof. solve_decision. Defined.

#[global] Instance Severity_eq_dec : EqDecision Severity.
Proof. solve_decision. Defined.

(** ** JavaScript containers *)

(** A [Map] with string keys, in insertion order. *)
Abbreviation JsMap V := (list (string * V)).

Fixpoint Map_get {V} (m : JsMap V) (k : string) : option V :=
  match m with
  | [] => None
  | (k', v) :: m' => if decide (k' = k) then Some v else Map_get m' k
  end.

(** [m.set(k, v)]: an existing key keeps its place, a new key goes last. *)
Fixpoint Map_set {V} (m : JsMap V) (k : string) (v : V) : JsMap V :=
  match m with
  | [] => [(k, v)]
  | (k', v') :: m' =>
      if decide (k' = k) then (k, v) :: m' else (k', v') :: Map_set m' k v
  end.

(** [Array.from(m.keys())] *)
Definition Map_keys {V} (m : JsMap V) : list string := map fst m.

(** [s.add(x)] on a [Set], kept as the list of its elements in insertion
    order. *)
Definition Set_add (s : list string) (x : string) : list string :=
  if decide (x ∈ s) then s else s ++ [x].

(** [[...new Set(l)]]: the elements of [l], each at its first occurrence. *)
Definition dedup (l : list string) : list string := foldl Set_add [] l.

(** The loop shape the source uses three times,
    [for (i = 0; i < arr.length; i++) for (j = i + 1; j < arr.length; j++)],
    whose body reads [arr[i]] and [arr[j]] and pushes onto an array. *)
Definition forPairs {A W} (arr : list A)
    (body : list W → A → A → list W) (acc : list W) : list W :=
  foldl (fun acc i =>
           foldl (fun acc j =>
                    match arr !! i, arr !! j with
                    | Some x, Some y => body acc x y
                    | _, _ => acc
                    end)
                 acc (seq (S i) (length arr - S i)))
        acc (seq 0 (length arr)).

(** A string is truthy when it is not empty. *)
Definition truthy (s : string) : bool :=
  match s with EmptyString => false | String _ _ => true end.

(** ** The account-overlap detector *)

(** [const ids = map.get(key) || []; map.set(key, [...ids, personaId])] *)
Definition recordId (personaId : string) (m : JsMap (list string))
    (key : string) : JsMap (list string) :=
  Map_set m key (default [] (Map_get m key) ++ [personaId]).

Definition accountMapOf (personas : list Persona) : JsMap (list string) :=
  foldl (fun m persona =>
           foldl (recordId (id persona)) m (accounts (privateData persona)))
        [] personas.

Definition overlapDescription (account : string) : string :=
  "Account " +:+ Str.quoted account +:+ " is used in multiple personas".

Definition overlapWarning (account : string) (personaIds : list string)
    : PrivacyWarning :=
  {| type := account_overlap;
     description := overlapDescription account;
     severity := high;
     affectedPersonas := personaIds |}.

Definition detectAccountOverlaps (personas : list Persona)
    : list PrivacyWarning :=
  foldl (fun warnings '(account, personaIds) =>
           if 1 <? length personaIds
           then warnings ++ [overlapWarning account personaIds]
           else warnings)
        [] (accountMapOf personas).

(** ** The username-reuse detector *)

Definition recordUsername (personaId : string) (m : JsMap (list string))
    (account : string) : JsMap (list string) :=
  let parts := Str.split Str.colon account in
  if decide (length parts = 2) then
    match parts !! 1 with
    | Some part => recordId personaId m (Str.toLowerCase part)
    | None => m
    end
  else m.

Definition usernameMapOf (personas : list Persona) : JsMap (list string) :=
  foldl (fun m persona =>
           foldl (recordUsername (id persona)) m
                 (accounts (privateData persona)))
        [] personas.

Definition usernameDescription (u v : string) : string :=
  "Similar usernames detected: " +:+ Str.quoted u +:+ " and " +:+ Str.quoted v.

Definition usernameWarning (usernameMap : JsMap (list string))
    (u v : string) : PrivacyWarning :=
  let affected :=
    default [] (Map_get usernameMap u) ++ default [] (Map_get usernameMap v) in
  {| type := username_reuse;
     description := usernameDescription u v;
     severity := medium;
     affectedPersonas := dedup affected |}.

Definition usernameStep (usernameMap : JsMap (list string))
    (warnings : list PrivacyWarning) (u v : string) : list PrivacyWarning :=
  let similarity := calculateStringSimilarity u v in
  if gt_num similarity (7 # 10)
  then warnings ++ [usernameWarning usernameMap u v]
  else warnings.

Definition detectUsernamePatterns (personas : list Persona)
    : list PrivacyWarning :=
  let usernameMap := usernameMapOf personas in
  let allUsernames := Map_keys usernameMap in
  forPairs allUsernames (usernameStep usernameMap) [].

(** ** The metadata-similarity detector *)

Definition metadataWarning (pa pb : Persona) : PrivacyWarning :=
  {| type := metadata_similarity;
     description := "Similar notes detected between personas";
     severity := low;
     affectedPersonas := [id pa; id pb] |}.

Definition metadataStep (warnings : list PrivacyWarning) (pa pb : Persona)
    : list PrivacyWarning :=
  let notesA := Str.toLowerCase (notes (privateData pa)) in
  let notesB := Str.toLowerCase (notes (privateData pb)) in
  if truthy notesA && truthy notesB then
    let similarity := calculateStringSimilarity notesA notesB in
    if gt_num similarity (1 # 2)
    then warnings ++ [metadataWarning pa pb]
    else warnings
  else warnings.

Definition detectMetadataSimilarities (personas : list Persona)
    : list PrivacyWarning :=
  forPairs personas metadataStep [].

(** ** Orchestration *)

Definition analyzePrivacy (personas : list Persona) : list PrivacyWarning :=
  let warnings := [] in
  if length personas <=? 1 then warnings
  else
    let warnings := warnings ++ detectAccountOverlaps personas in
    let warnings := warnings ++ detectUsernamePatterns personas in
    let warnings := warnings ++ detectMetadataSimilarities personas in
    warnings.

(** ** Scoring *)

Record PrivacyScore := {
  score : Z;
  grade : string;
  accountIsolation : Z;
  usernameUniqueness : Z;
  metadataSeparation : Z
}.

(** [Math.round]: the nearest integer, halves go up. *)
Definition Math_round (x : Q) : Z := Qfloor (x + (1 # 2)).

(** [warnings.filter(w => w.type === t).length] *)
Definition countType (t : WarningType) (warnings : list PrivacyWarning) : nat :=
  length (filter (fun w => type w = t) warnings).

(** The [if]/[else if] chain that determines the grade. *)
Definition gradeOf (score : Z) : string :=
  if (score <? 60)%Z then "F"
  else if (score <? 70)%Z then "D"
  else if (score <? 80)%Z then "C"
  else if (score <? 90)%Z then "B"
  else if (score <? 95)%Z then "A"
  else "A+".

(** [calculatePrivacyScore]; the three counts by severity of the source
    are computed and never used, and are left out. *)
Definition calculatePrivacyScore (warnings : list PrivacyWarning)
    : PrivacyScore :=
  let accountOverlaps := countType account_overlap warnings in
  let usernameReuse := countType username_reuse warnings in
  let metadataSimilarity := countType metadata_similarity warnings in
  let accountIsolation := Z.max 0 (100 - Z.of_nat accountOverlaps * 50) in
  let usernameUniqueness := Z.max 0 (100 - Z.of_nat usernameReuse * 25) in
  let metadataSeparation := Z.max 0 (100 - Z.of_nat metadataSimilarity * 15) in
  let score :=
    Math_round (inject_Z accountIsolation * (5 # 10)
                + inject_Z usernameUniqueness * (3 # 10)
                + inject_Z metadataSeparation * (2 # 10))%Q in
  {| score := score;
     grade := gradeOf score;
     accountIsolation := accountIsolation;
     usernameUniqueness := usernameUniqueness;
     metadataSeparation := metadataSeparation |}.

(** ** Recommendations *)

Definition recAccountsGeneric : string :=
  "Avoid using the same accounts across different personas to maintain separation.".

Definition recAccount (account : string) : string :=
  "Consider removing account " +:+ Str.quoted account
    +:+ " from all but one persona.".

Definition recUsernames : string :=
  "Use completely different username patterns across personas to avoid correlation.".

Definition recMetadata : string :=
  "Avoid using similar language or content in notes across different personas.".

Definition recStyle : string :=
  "Consider using different writing styles for each persona to avoid stylometric analysis.".

Definition recTiming : string :=
  "Be mindful of timing patterns - avoid switching between personas at predictable intervals.".

Definition recGreat : string :=
  "Great job! Continue maintaining separation between your personas.".

(** The body of [accountOverlaps.forEach]. *)
Definition recommendAccount (recommendations : list string)
    (warning : PrivacyWarning) : list string :=
  match Str.matchQuoted (description warning) with
  | Some account =>
      if truthy account then recommendations ++ [recAccount account]
      else recommendations
  | None => recommendations
  end.

Definition generateRecommendations (warnings : list PrivacyWarning)
    : list string :=
  let recommendations := [] in
  let accountOverlaps := filter (fun w => type w = account_overlap) warnings in
  let recommendations :=
    if 0 <? length accountOverlaps
    then foldl recommendAccount (recommendations ++ [recAccountsGeneric])
               accountOverlaps
    else recommendations in
  let usernameWarnings := filter (fun w => type w = username_reuse) warnings in
  let recommendations :=
    if 0 <? length usernameWarnings
    then recommendations ++ [recUsernames] else recommendations in
  let metadataWarnings :=
    filter (fun w => type w = metadata_similarity) warnings in
  let recommendations :=
    if 0 <? length metadataWarnings
    then recommendations ++ [recMetadata] else recommendations in
  if 0 <? length warnings
  then recommendations ++ [recStyle] ++ [recTiming]
  else recommendations ++ [recGreat].

(** ** Graph transform *)

Record GraphNode := {
  node_id : string;
  node_type : string;
  node_accounts : nat;
  node_label : string
}.

Record GraphLink := {
  source : string;
  target : string;
  link_type : WarningType;
  link_severity : Severity
}.

Record GraphData := {
  nodes : list GraphNode;
  links : list GraphLink
}.

Definition personaNode (persona : Persona) : GraphNode :=
  {| node_id := id persona;
     node_type := "persona";
     node_accounts := length (accounts (privateData persona));
     node_label := String.substring 0 8 (id persona) |}.

(** The [pairs] array built by the two loops inside [flatMap]. *)
Definition warningPairs (warning : PrivacyWarning) : list (string * string) :=
  let personaIds := affectedPersonas warning in
  forPairs personaIds (fun pairs x y => pairs ++ [(x, y)]) [].

Definition warningLinks (warning : PrivacyWarning) : list GraphLink :=
  map (fun '(source, target) =>
         {| source := source;
            target := target;
            link_type := type warning;
            link_severity := severity warning |})
      (warningPairs warning).

Definition generateGraphData (personas : list Persona)
    (warnings : list PrivacyWarning) : GraphData :=
  {| nodes := map personaNode personas;
     links := flat_map warningLinks warnings |}.

(** The exported wrapper. *)
Definition generatePrivacyGraph := generateGraphData.

(** ** The hook that calls the analyzer (src/lib/privacy/usePrivacyAnalysis.ts) *)

(** What [analyzePersonas] returns.  Its [try] block calls the three
    functions above, none of which throws on a list of personas, so that
    the [catch] branch, which returns [null], is never taken. *)
Record AnalysisResult := {
  result_warnings : list PrivacyWarning;
  result_score : PrivacyScore;
  result_recommendations : list string
}.

Definition analyzePersonas (personas : list Persona) : AnalysisResult :=
  let detectedWarnings := analyzePrivacy personas in
  let score := calculatePrivacyScore detectedWarnings in
  let recs := generateRecommendations detectedWarnings in
  {| result_warnings := detectedWarnings;
     result_score := score;
     result_recommendations := recs |}.

Inductive RiskLevel := risk_none | risk_low | risk_medium | risk_high.

(** [warnings.some(w => w.severity === s)] *)
Definition someSeverity (s : Severity) (warnings : list PrivacyWarning)
    : bool :=
  existsb (fun w => bool_decide (severity w = s)) warnings.

(** [getPrivacyRiskLevel], on the warnings that the hook holds. *)
Definition getPrivacyRiskLevel (warnings : list PrivacyWarning) : RiskLevel :=
  if length warnings =? 0 then risk_none
  else if someSeverity high warnings then risk_high
  else if someSeverity medium warnings then risk_medium
  else risk_low.

(** ** Definitions used by the statements and the proofs *)

(** The content of a cell, [None] when it is [null] or out of range. *)
Definition mcell (m : Matrix) (i j : nat) : option nat :=
  match m !! i with
  | Some row => match row !! j with Some c => c | None => None end
  | None => None
  end.

(** A matrix of [rows] rows of [cols] cells each. *)
Definition shaped (rows cols : nat) (m : Matrix) : Prop :=
  length m = rows ∧ ∀ i row, m !! i = Some row → length row = cols.

(** The Levenshtein distance between the prefixes of length [i] and [j]. *)
Definition levTable (a b : string) (i j : nat) : nat :=
  lev (take i (Str.chars a)) (take j (Str.chars b)).

(** The cells selected by [ready] hold the distances of the prefixes. *)
Definition filled (a b : string) (ready : nat → nat → Prop) (m : Matrix)
    : Prop :=
  shaped (S (String.length a)) (S (String.length b)) m
  ∧ ∀ i j, i ≤ String.length a → j ≤ String.length b → ready i j →
           mcell m i j = Some (levTable a b i j).

(** The unordered pairs of positions of a list, in the order of the two
    nested loops: the element at [i] with each element at [j > i]. *)
Fixpoint pairs {A} (l : list A) : list (A * A) :=
  match l with
  | [] => []
  | x :: l' => map (pair x) l' ++ pairs l'
  end.

(** The link that a warning puts between two persona ids. *)
Definition mkLink (warning : PrivacyWarning) (st : string * string)
    : GraphLink :=
  {| source := st.1;
     target := st.2;
     link_type := type warning;
     link_severity := severity warning |}.

(** A persona for the examples: only the fields the analyzer reads vary. *)
Definition mkPersona (pid : string) (accs : list string) (note : string)
    : Persona :=
  {| id := pid;
     publicKey := EmptyString;
     privateData :=
       {| accounts := accs; signedProofs := []; notes := note |};
     createdAt := EmptyString;
     isPublic := false;
     name := EmptyString |}.

(** The multimap that the two first detectors build, entry after entry. *)
Definition groupIds (entries : list (string * string))
    (m : JsMap (list string)) : JsMap (list string) :=
  foldl (fun m e => recordId e.2 m e.1) m entries.

(** The persona ids recorded for a key, one per entry, in encounter
    order. *)
Definition valuesOf (entries : list (string * string)) (k : string)
    : list string :=
  map snd (filter (fun e => e.1 = k) entries).

(** The distinct keys in the order of their first entry, each with its
    persona ids. *)
Definition grouped (entries : list (string * string))
    : JsMap (list string) :=
  map (fun k => (k, valuesOf entries k)) (dedup (map fst entries)).

(** The entries [(key, persona id)] of a persona list, in encounter order:
    persona after persona, account after account. *)
Definition personaEntries (keysOf : string → list string)
    (personas : list Persona) : list (string * string) :=
  flat_map (fun persona =>
              flat_map (fun account =>
                          map (fun k => (k, id persona)) (keysOf account))
                       (accounts (privateData persona)))
           personas.

Definition accountEntries : list Persona → list (string * string) :=
  personaEntries (fun account => [account]).

(** The username of an account: the lowercased second part, when the
    account has exactly two parts around colons. *)
Definition usernameOf (account : string) : option string :=
  match Str.split Str.colon account with
  | [_; part] => Some (Str.toLowerCase part)
  | _ => None
  end.

Definition usernameKeys (account : string) : list string :=
  match usernameOf account with Some u => [u] | None => [] end.

Definition usernameEntries : list Persona → list (string * string) :=
  personaEntries usernameKeys.

(** What [generateRecommendations] says about the account of one
    [account_overlap] warning. *)
Definition accountAdvice (warning : PrivacyWarning) : list string :=
  recommendAccount [] warning.

(** An account that holds a double quote, and two personas that share it. *)
Definition quoteAccount : string := "x:a" +:+ String Str.dquote "b".

Definition quotePersonas : list Persona :=
  [mkPersona "P1" [quoteAccount] EmptyString;
   mkPersona "P2" [quoteAccount] EmptyString].

(** Two personas that share the empty account string. *)
Definition emptyAccountPersonas : list Persona :=
  [mkPersona "P1" [EmptyString] EmptyString;
   mkPersona "P2" [EmptyString] EmptyString].

(** ** Binary64 arithmetic

    The numbers of the source are binary64 floating-point numbers.  The
    definitions below redo, in binary64, the two places of the source
    where a number is not an integer: the weighted sum of the sub-scores
    and the comparison of a similarity with a threshold.  They are used to
    check the exact model above against binary64 (see
    [weightedSum_binary64] and [thresholds_binary64]). *)

Set Warnings "-inexact-float".

(** An integer as a binary64 number. *)
Definition fl (z : Z) : float := PrimFloat.of_uint63 (Uint63.of_Z z).

(** [accountIsolation * 0.5 + usernameUniqueness * 0.3
     + metadataSeparation * 0.2] *)
Definition weightedSumFloat (a u m : float) : float :=
  (a * 0.5 + u * 0.3 + m * 0.2)%float.

(** The values that [Math.max(0, 100 - n * step)] takes. *)
Definition subScores (step : Z) : list Z :=
  map (fun n => Z.max 0 (100 - Z.of_nat n * step)) (seq 0 8).

Definition subScoreTriples : list (Z * Z * Z) :=
  flat_map (fun a =>
              flat_map (fun u => map (fun m => (a, u, m)) (subScores 15))
                       (subScores 25))
           (subScores 50).

(** [1 - distance / maxLength > threshold], in binary64 and exactly. *)
Definition aboveFloat (distance maxLength : Z) (threshold : float) : bool :=
  PrimFloat.ltb threshold (1 - fl distance / fl maxLength)%float.

Definition aboveExact (distance maxLength : Z) (threshold : Q) : bool :=
  gt_num (1 - inject_Z distance / inject_Z maxLength)%Q threshold.

(** The distances [0 .. m] for the lengths [m = 1 .. n]. *)
Definition ratios (n : nat) : list (Z * Z) :=
  flat_map (fun m => map (fun d => (Z.of_nat d, Z.of_nat m)) (seq 0 (S m)))
           (seq 1 n).

(** Every account string of every persona, in encounter order. *)
Definition allAccounts (personas : list Persona) : list string :=
  flat_map (fun persona => accounts (privateData persona)) personas.

(** How often an account string is listed, over all personas. *)
Definition occurrences (account : string) (personas : list Persona) : nat :=
  length (filter (fun a => a = account) (allAccounts personas)).

(** The test of the metadata detector on a pair of personas. *)
Definition notesClose (pa pb : Persona) : bool :=
  truthy (Str.toLowerCase (notes (privateData pa)))
  && truthy (Str.toLowerCase (notes (privateData pb)))
  && gt_num (calculateStringSimilarity
               (Str.toLowerCase (notes (privateData pa)))
               (Str.toLowerCase (notes (privateData pb)))) (1 # 2).

(** The fields of a persona that the analyzer reads. *)
Definition readFields (persona : Persona) : string * list string * string :=
  (id persona, accounts (privateData persona), notes (privateData persona)).

(** A persona with the same read fields and nothing else. *)
Definition strip (persona : Persona) : Persona :=
  mkPersona (id persona) (accounts (privateData persona))
            (notes (privateData persona)).

(** * Properties *)

(** ** The Levenshtein distance is the least cost of an edit script *)

Example lev_kitten : lev (Str.chars "kitten") (Str.chars "sitting") = 3.
Proof. reflexivity. Qed.

Section Levenshtein.

Implicit Types a b : list ascii.

Lemma lev_nil_r a : lev a [] = length a.
Proof. by destruct a. Qed.

Lemma lev_cons_cons x y a b :
  lev (x :: a) (y :: b)
  = min3 (lev a (y :: b) + 1) (lev (x :: a) b + 1)
         (lev a b + if decide (x = y) then 0 else 1).
Proof. reflexivity. Qed.

Lemma edit_nil_l b : edit [] b (length b).
Proof. induction b; simpl; [constructor | by apply edit_ins]. Qed.

Lemma edit_nil_r a : edit a [] (length a).
Proof. induction a; simpl; [constructor | by apply edit_del]. Qed.

Lemma edit_cost_eq a b n m : edit a b n → n = m → edit a b m.
Proof. by intros ? <-. Qed.

Lemma lev_edit a b : edit a b (lev a b).
Proof.
  revert b. induction a as [|x a IHa]; intros b.
  - apply edit_nil_l.
  - induction b as [|y b IHb].
    + rewrite lev_nil_r. apply edit_nil_r.
    + rewrite lev_cons_cons. unfold min3.
      destruct (Nat.min_spec (lev a (y :: b) + 1) (lev (x :: a) b + 1))
        as [[_ ->]|[_ ->]];
      match goal with
      | |- edit _ _ (Nat.min ?p ?q) =>
          destruct (Nat.min_spec p q) as [[_ ->]|[_ ->]]
      end;
      first [ by apply edit_sub
            | eapply edit_cost_eq; [apply edit_del, IHa | lia]
            | eapply edit_cost_eq; [apply edit_ins, IHb | lia] ].
Qed.

Lemma lev_least a b n : edit a b n → lev a b ≤ n.
Proof.
  induction 1 as [|x a b n _ IH|y a b n _ IH|x y a b n _ IH].
  - done.
  - destruct b as [|y b].
    + rewrite lev_nil_r in *. simpl. lia.
    + rewrite lev_cons_cons. unfold min3. lia.
  - destruct a as [|x a].
    + simpl in *. lia.
    + rewrite lev_cons_cons. unfold min3. lia.
  - rewrite lev_cons_cons. unfold min3. lia.
Qed.

(** The same scripts, read from the other end of the strings. *)
Lemma edit_snoc_del x a b n : edit a b n → edit (a ++ [x]) b (S n).
Proof.
  induction 1 as [|x' a b n _ IH|y a b n _ IH|x' y a b n _ IH]; simpl.
  - apply edit_del, edit_nil.
  - by apply edit_del.
  - by apply edit_ins.
  - eapply edit_cost_eq; [apply (edit_sub x' y), IH | lia].
Qed.

Lemma edit_snoc_ins y a b n : edit a b n → edit a (b ++ [y]) (S n).
Proof.
  induction 1 as [|x a b n _ IH|y' a b n _ IH|x y' a b n _ IH]; simpl.
  - apply edit_ins, edit_nil.
  - by apply edit_del.
  - by apply edit_ins.
  - eapply edit_cost_eq; [apply (edit_sub x y'), IH | lia].
Qed.

Lemma edit_snoc_sub x y a b n :
  edit a b n →
  edit (a ++ [x]) (b ++ [y]) (n + if decide (x = y) then 0 else 1).
Proof.
  induction 1 as [|x' a b n _ IH|y' a b n _ IH|x' y' a b n _ IH]; simpl.
  - apply (edit_sub x y [] [] 0), edit_nil.
  - eapply edit_cost_eq; [apply edit_del, IH | lia].
  - eapply edit_cost_eq; [apply edit_ins, IH | lia].
  - eapply edit_cost_eq; [apply (edit_sub x' y'), IH | lia].
Qed.

Lemma edit_rev a b n : edit a b n → edit (rev a) (rev b) n.
Proof.
  induction 1; simpl.
  - constructor.
  - by apply edit_snoc_del.
  - by apply edit_snoc_ins.
  - by apply edit_snoc_sub.
Qed.

Lemma edit_sym a b n : edit a b n → edit b a n.
Proof.
  induction 1 as [|x a b n _ IH|y a b n _ IH|x y a b n _ IH].
  - constructor.
  - by apply edit_ins.
  - by apply edit_del.
  - eapply edit_cost_eq; [apply (edit_sub y x), IH |].
    repeat case_decide; congruence.
Qed.

Lemma edit_zero a b n : edit a b n → n = 0 → a = b.
Proof.
  induction 1 as [|x a b n _ IH|y a b n _ IH|x y a b n _ IH]; intros Hn;
    try done.
  case_decide; [|lia]. subst. f_equal. apply IH. lia.
Qed.

Lemma edit_refl a : edit a a 0.
Proof.
  induction a as [|x a IH]; [constructor|].
  eapply edit_cost_eq; [apply (edit_sub x x), IH |].
  case_decide; [lia | done].
Qed.

Lemma lev_rev a b : lev (rev a) (rev b) = lev a b.
Proof.
  apply Nat.le_antisymm.
  - apply lev_least, edit_rev, lev_edit.
  - rewrite <- (rev_involutive a), <- (rev_involutive b) at 1.
    apply lev_least, edit_rev, lev_edit.
Qed.

Lemma lev_sym a b : lev a b = lev b a.
Proof. apply Nat.le_antisymm; apply lev_least, edit_sym, lev_edit. Qed.

Lemma lev_zero a b : lev a b = 0 ↔ a = b.
Proof.
  split.
  - intros H. apply (edit_zero a b (lev a b)); [apply lev_edit | done].
  - intros ->. apply Nat.le_0_r. apply lev_least, edit_refl.
Qed.

Lemma lev_le_max a b : lev a b ≤ Nat.max (length a) (length b).
Proof.
  revert b. induction a as [|x a IH]; intros [|y b]; simpl length.
  - done.
  - simpl. lia.
  - rewrite lev_nil_r. simpl. lia.
  - rewrite lev_cons_cons. unfold min3. specialize (IH b).
    case_decide; lia.
Qed.

Lemma lev_snoc_snoc x y a b :
  lev (a ++ [x]) (b ++ [y])
  = min3 (lev a (b ++ [y]) + 1) (lev (a ++ [x]) b + 1)
         (lev a b + if decide (x = y) then 0 else 1).
Proof.
  rewrite <- (lev_rev (a ++ [x]) (b ++ [y])), !rev_unit, lev_cons_cons.
  rewrite <- (rev_unit b y), <- (rev_unit a x), !lev_rev. done.
Qed.

End Levenshtein.

(** ** The matrix of the source holds the distances of the prefixes *)

Lemma foldl_seq_inv {A} (P : nat → A → Prop) (f : A → nat → A) len :
  ∀ start x,
    P start x →
    (∀ k y, start ≤ k < start + len → P k y → P (S k) (f y k)) →
    P (start + len) (foldl f x (seq start len)).
Proof.
  induction len as [|len IH]; intros start x Hx Hstep; simpl.
  - by rewrite Nat.add_0_r.
  - rewrite <- Nat.add_succ_comm. apply IH.
    + apply Hstep; [lia | done].
    + intros k y Hk. apply Hstep. lia.
Qed.

Lemma mset_shaped rows cols m i j v :
  shaped rows cols m → shaped rows cols (mset m i j v).
Proof.
  intros [Hlen Hrows]. unfold mset.
  destruct (m !! i) as [row|] eqn:Hi; [|done]. split.
  - by rewrite length_insert.
  - intros i' row' H'. destruct (decide (i' = i)) as [->|Hne].
    + rewrite list_lookup_insert_eq in H' by (by eapply lookup_lt_Some).
      injection H' as <-. rewrite length_insert. by eapply Hrows.
    + rewrite list_lookup_insert_ne in H' by done. by eapply Hrows.
Qed.

Lemma mcell_mset rows cols m i j v i' j' :
  shaped rows cols m → i < rows → j < cols →
  mcell (mset m i j v) i' j'
  = if decide (i' = i ∧ j' = j) then Some v else mcell m i' j'.
Proof.
  intros [Hlen Hrows] Hi Hj. unfold mset, mcell.
  destruct (lookup_lt_is_Some_2 m i) as [row Hrow]; [lia|].
  rewrite Hrow. pose proof (Hrows _ _ Hrow) as Hc.
  destruct (decide (i' = i)) as [->|Hne].
  - rewrite list_lookup_insert_eq by lia.
    destruct (decide (j' = j)) as [->|Hnej].
    + rewrite list_lookup_insert_eq by lia. by rewrite decide_True.
    + rewrite list_lookup_insert_ne by done. rewrite Hrow.
      rewrite decide_False; [done | by intros [_ ?]].
  - rewrite list_lookup_insert_ne by done.
    rewrite decide_False; [done | by intros [? _]].
Qed.

Lemma mget_mcell m i j v : mcell m i j = Some v → mget m i j = v.
Proof.
  unfold mcell, mget. destruct (m !! i) as [row|]; [|done].
  destruct (row !! j) as [[c|]|]; naive_solver.
Qed.

Lemma newMatrix_shaped rows cols : shaped rows cols (newMatrix rows cols).
Proof.
  split; [apply length_replicate|].
  intros i row [-> _]%lookup_replicate. apply length_replicate.
Qed.

Lemma length_chars s : length (Str.chars s) = String.length s.
Proof. induction s; simpl; [done | by f_equal]. Qed.

Lemma get_chars s : ∀ n, String.get n s = Str.chars s !! n.
Proof. induction s as [|c s IH]; intros [|n]; simpl; try done. Qed.

Lemma levTable_0_r a b i : i ≤ String.length a → levTable a b i 0 = i.
Proof.
  intros Hi. unfold levTable. rewrite take_0, lev_nil_r, length_take.
  rewrite length_chars. lia.
Qed.

Lemma levTable_0_l a b j : j ≤ String.length b → levTable a b 0 j = j.
Proof.
  intros Hj. unfold levTable. rewrite take_0. simpl.
  rewrite length_take, length_chars. lia.
Qed.

Lemma levTable_step a b i j :
  1 ≤ i ≤ String.length a → 1 ≤ j ≤ String.length b →
  levTable a b i j
  = min3 (levTable a b (i - 1) j + 1) (levTable a b i (j - 1) + 1)
         (levTable a b (i - 1) (j - 1) + cost a b i j).
Proof.
  intros Hi Hj. destruct i as [|i]; [lia|]. destruct j as [|j]; [lia|].
  replace (S i - 1) with i by lia. replace (S j - 1) with j by lia.
  unfold levTable, cost.
  replace (S i - 1) with i by lia. replace (S j - 1) with j by lia.
  rewrite !get_chars.
  destruct (lookup_lt_is_Some_2 (Str.chars a) i) as [x Hx];
    [rewrite length_chars; lia|].
  destruct (lookup_lt_is_Some_2 (Str.chars b) j) as [y Hy];
    [rewrite length_chars; lia|].
  rewrite (take_S_r _ _ _ Hx), (take_S_r _ _ _ Hy), Hx, Hy.
  rewrite lev_snoc_snoc. do 2 f_equal.
  repeat case_decide; congruence.
Qed.

Lemma filled_weaken a b (P Q : nat → nat → Prop) m :
  filled a b P m →
  (∀ i j, i ≤ String.length a → j ≤ String.length b → Q i j → P i j) →
  filled a b Q m.
Proof.
  intros [Hs Hc] HPQ. split; [done|]. intros i j ???. by apply Hc, HPQ.
Qed.

Lemma filled_mset a b (P Q : nat → nat → Prop) m i j :
  filled a b P m → i ≤ String.length a → j ≤ String.length b →
  (∀ i' j', i' ≤ String.length a → j' ≤ String.length b →
            Q i' j' → (i' = i ∧ j' = j) ∨ P i' j') →
  filled a b Q (mset m i j (levTable a b i j)).
Proof.
  intros [Hs Hc] Hi Hj HQ. split; [by apply mset_shaped|].
  intros i' j' Hi' Hj' Hq.
  rewrite (mcell_mset _ _ _ _ _ _ _ _ Hs) by lia.
  case_decide as Heq; [by destruct Heq as [-> ->]|].
  destruct (HQ _ _ Hi' Hj' Hq); [done | by apply Hc].
Qed.

Lemma initColumn_filled a b :
  filled a b (fun i j => j = 0)
    (initColumn (String.length a)
       (newMatrix (S (String.length a)) (S (String.length b)))).
Proof.
  eapply filled_weaken.
  - apply (foldl_seq_inv (fun k m => filled a b (fun i j => i < k ∧ j = 0) m)).
    + split; [apply newMatrix_shaped | lia].
    + intros k m Hk Hm. simpl.
      replace (mset m k 0 k) with (mset m k 0 (levTable a b k 0))
        by (rewrite levTable_0_r; [done | lia]).
      eapply filled_mset; [done | lia | lia |].
      intros i j _ _ [Hi ->]. destruct (decide (i = k)); [by left | right; lia].
  - simpl. lia.
Qed.

Lemma initRow_filled a b :
  filled a b (fun i j => i = 0 ∨ j = 0)
    (initRow (String.length b)
       (initColumn (String.length a)
          (newMatrix (S (String.length a)) (S (String.length b))))).
Proof.
  eapply filled_weaken.
  - apply (foldl_seq_inv
             (fun k m => filled a b (fun i j => j = 0 ∨ (i = 0 ∧ j < k)) m)).
    + eapply filled_weaken; [apply initColumn_filled | simpl; lia].
    + intros k m Hk Hm. simpl.
      replace (mset m 0 k k) with (mset m 0 k (levTable a b 0 k))
        by (rewrite levTable_0_l; [done | lia]).
      eapply filled_mset; [done | lia | lia |].
      intros i j _ _ Hij. simpl in Hij.
      destruct (decide (i = 0 ∧ j = k)); [by left | right; lia].
  - simpl. lia.
Qed.

Lemma fillCell_filled a b i j (P : nat → nat → Prop) m :
  1 ≤ i ≤ String.length a → 1 ≤ j ≤ String.length b →
  filled a b P m →
  P (i - 1) j → P i (j - 1) → P (i - 1) (j - 1) →
  filled a b (fun i' j' => (i' = i ∧ j' = j) ∨ P i' j') (fillCell a b i m j).
Proof.
  intros Hi Hj Hm Hup Hleft Hdiag. unfold fillCell.
  destruct Hm as [Hs Hc].
  rewrite (mget_mcell m (i - 1) j (levTable a b (i - 1) j))
    by (apply Hc; [lia | lia | done]).
  rewrite (mget_mcell m i (j - 1) (levTable a b i (j - 1)))
    by (apply Hc; [lia | lia | done]).
  rewrite (mget_mcell m (i - 1) (j - 1) (levTable a b (i - 1) (j - 1)))
    by (apply Hc; [lia | lia | done]).
  rewrite <- levTable_step by done.
  eapply filled_mset; [by split | lia | lia | done].
Qed.

Lemma fillRow_filled a b i m :
  1 ≤ i ≤ String.length a →
  filled a b (fun i' j' => i' < i ∨ j' = 0) m →
  filled a b (fun i' j' => i' < S i ∨ j' = 0) (fillRow a b m i).
Proof.
  intros Hi Hm. eapply filled_weaken.
  - apply (foldl_seq_inv
             (fun k m => filled a b
                (fun i' j' => i' < i ∨ j' = 0 ∨ (i' = i ∧ j' < k)) m)).
    + eapply filled_weaken; [exact Hm | simpl; lia].
    + intros k m' Hk Hm'. eapply filled_weaken.
      * apply (fillCell_filled a b i k
                 (fun i' j' => i' < i ∨ j' = 0 ∨ (i' = i ∧ j' < k)) m');
          [done | lia | exact Hm' | | |]; simpl; lia.
      * simpl. lia.
  - simpl. lia.
Qed.

Lemma levenshteinMatrix_filled a b :
  filled a b (fun _ _ => True) (levenshteinMatrix a b).
Proof.
  eapply filled_weaken.
  - apply (foldl_seq_inv
             (fun k m => filled a b (fun i' j' => i' < k ∨ j' = 0) m)).
    + eapply filled_weaken; [apply initRow_filled | simpl; lia].
    + intros k m Hk Hm. apply fillRow_filled; [lia | done].
  - simpl. lia.
Qed.

(** The number the source reads at [matrix[a.length][b.length]] is the
    Levenshtein distance of the two strings. *)
Lemma levenshteinDistance_lev a b :
  levenshteinDistance a b = lev (Str.chars a) (Str.chars b).
Proof.
  unfold levenshteinDistance.
  destruct (levenshteinMatrix_filled a b) as [_ Hc].
  rewrite (mget_mcell _ _ _ _ (Hc _ _ (le_n _) (le_n _) I)).
  unfold levTable. rewrite <- !length_chars, !firstn_all. done.
Qed.

Example distance_kitten : levenshteinDistance "kitten" "sitting" = 3.
Proof. vm_compute. reflexivity. Qed.

(** ** Similarity *)

Lemma chars_inj a b : Str.chars a = Str.chars b → a = b.
Proof.
  intros H. rewrite <- (String.string_of_list_ascii_of_string a).
  rewrite <- (String.string_of_list_ascii_of_string b).
  unfold Str.chars in H. by rewrite H.
Qed.

(** The value of the last branch of [calculateStringSimilarity]. *)
Lemma similarity_unequal a b :
  a ≠ b → String.length a ≠ 0 → String.length b ≠ 0 →
  calculateStringSimilarity a b
  = (1 - inject_Z (Z.of_nat (lev (Str.chars a) (Str.chars b)))
         / inject_Z (Z.of_nat (Nat.max (String.length a) (String.length b))))%Q.
Proof.
  intros Hne Ha Hb. unfold calculateStringSimilarity.
  rewrite decide_False by done.
  destruct (Nat.eqb_spec (String.length a) 0); [done|].
  destruct (Nat.eqb_spec (String.length b) 0); [done|].
  simpl. by rewrite levenshteinDistance_lev.
Qed.

Lemma similarity_empty a b :
  a ≠ b → String.length a = 0 ∨ String.length b = 0 →
  calculateStringSimilarity a b = 0%Q.
Proof.
  intros Hne H. unfold calculateStringSimilarity.
  rewrite decide_False by done.
  destruct (Nat.eqb_spec (String.length a) 0); [done|].
  destruct (Nat.eqb_spec (String.length b) 0); [done|]. lia.
Qed.

Lemma ratio_bounds (d m : nat) :
  d ≤ m → 0 < m →
  (0 <= inject_Z (Z.of_nat d) / inject_Z (Z.of_nat m) <= 1)%Q
  ∧ (0 < d → (0 < inject_Z (Z.of_nat d) / inject_Z (Z.of_nat m))%Q).
Proof.
  intros Hdm Hm.
  assert (0 < inject_Z (Z.of_nat m))%Q as Hm'
    by (change 0%Q with (inject_Z 0); rewrite <- Zlt_Qlt; lia).
  repeat split.
  - apply Qle_shift_div_l; [done|]. rewrite Qmult_0_l.
    change 0%Q with (inject_Z 0). rewrite <- Zle_Qle. lia.
  - apply Qle_shift_div_r; [done|]. rewrite Qmult_1_l.
    rewrite <- Zle_Qle. lia.
  - intros Hd. apply Qlt_shift_div_l; [done|]. rewrite Qmult_0_l.
    change 0%Q with (inject_Z 0). rewrite <- Zlt_Qlt. lia.
Qed.

Lemma lev_chars_bounds a b :
  a ≠ b →
  0 < lev (Str.chars a) (Str.chars b)
  ∧ lev (Str.chars a) (Str.chars b)
    ≤ Nat.max (String.length a) (String.length b).
Proof.
  intros Hne. split.
  - destruct (lev (Str.chars a) (Str.chars b)) eqn:H; [|lia].
    apply lev_zero, chars_inj in H. done.
  - rewrite <- !length_chars. apply lev_le_max.
Qed.

(** C3: the similarity of two strings lies between 0 and 1; it is 1
    exactly when the strings are equal (the empty strings included); it is
    0 when one string is empty and the other is not; in every other case it
    is one minus the Levenshtein distance over the larger length, on the
    strings as they are given (upper and lower case differ).  The
    Levenshtein distance [lev] is the least cost of an edit script. *)
Theorem similarity_spec (a b : string) :
  (0 <= calculateStringSimilarity a b <= 1)%Q
  ∧ ((calculateStringSimilarity a b == 1)%Q ↔ a = b)
  ∧ (String.length a = 0 ∨ String.length b = 0 → a ≠ b →
     calculateStringSimilarity a b = 0%Q)
  ∧ (a ≠ b → String.length a ≠ 0 → String.length b ≠ 0 →
     calculateStringSimilarity a b
     = (1 - inject_Z (Z.of_nat (lev (Str.chars a) (Str.chars b)))
            / inject_Z (Z.of_nat (Nat.max (String.length a)
                                          (String.length b))))%Q)
  ∧ (calculateStringSimilarity "A" "a" == 0)%Q
  ∧ (edit (Str.chars a) (Str.chars b) (lev (Str.chars a) (Str.chars b))
     ∧ ∀ n, edit (Str.chars a) (Str.chars b) n →
            lev (Str.chars a) (Str.chars b) ≤ n).
Proof.
  assert (a = b → calculateStringSimilarity a b = 1%Q) as Heq
    by (intros ->; unfold calculateStringSimilarity; by rewrite decide_True).
  assert (a ≠ b → (0 <= calculateStringSimilarity a b < 1)%Q) as Hlt.
  { intros Hne.
    destruct (decide (String.length a = 0 ∨ String.length b = 0)) as [H0|H0].
    - rewrite similarity_empty by done. lra.
    - rewrite similarity_unequal by (done || lia).
      destruct (lev_chars_bounds a b Hne) as [Hpos Hle].
      destruct (ratio_bounds _ _ Hle ltac:(lia)) as [[H1 H2] H3].
      specialize (H3 Hpos). revert H1 H2 H3.
      generalize (inject_Z (Z.of_nat (lev (Str.chars a) (Str.chars b)))
                  / inject_Z (Z.of_nat (Nat.max (String.length a)
                                                (String.length b))))%Q.
      intros r ? ? ?. lra. }
  split; [|split; [|split; [|split; [|split]]]].
  - destruct (decide (a = b)) as [Hab|Hab].
    + rewrite (Heq Hab). lra.
    + specialize (Hlt Hab). lra.
  - split.
    + intros H1. destruct (decide (a = b)) as [Hab|Hab]; [done|].
      specialize (Hlt Hab). lra.
    + intros Hab. by rewrite (Heq Hab).
  - intros H0 Hne. by apply similarity_empty.
  - apply similarity_unequal.
  - by vm_compute.
  - split; [apply lev_edit | apply lev_least].
Qed.

Lemma similarity_spec_witness :
  (calculateStringSimilarity "kitten" "kitten" == 1)%Q
  ∧ calculateStringSimilarity "" "bob" = 0%Q
  ∧ calculateStringSimilarity "alice123" "alice124"
    = (1 - inject_Z (Z.of_nat (lev (Str.chars "alice123")
                                   (Str.chars "alice124")))
           / inject_Z (Z.of_nat (Nat.max (String.length "alice123")
                                         (String.length "alice124"))))%Q.
Proof.
  split; [|split].
  - apply (proj2 (proj1 (proj2 (similarity_spec "kitten" "kitten")))).
    reflexivity.
  - apply (proj1 (proj2 (proj2 (similarity_spec "" "bob")))).
    + left. reflexivity.
    + discriminate.
  - apply (proj1 (proj2 (proj2 (proj2 (similarity_spec "alice123" "alice124")))));
      discriminate.
Defined.

(** C9: the similarity does not depend on the order of its arguments. *)
Theorem similarity_symmetric (a b : string) :
  calculateStringSimilarity a b = calculateStringSimilarity b a.
Proof.
  unfold calculateStringSimilarity.
  destruct (decide (a = b)) as [->|Hne].
  - by rewrite decide_True.
  - rewrite decide_False by congruence.
    rewrite (orb_comm (String.length a =? 0)).
    destruct ((String.length b =? 0) || (String.length a =? 0)); [done|].
    simpl. rewrite !levenshteinDistance_lev, (lev_sym (Str.chars a)).
    by rewrite (Nat.max_comm (String.length a)).
Qed.

Example similarity_alice :
  (calculateStringSimilarity "alice123" "alice124" == 7 # 8)%Q.
Proof. vm_compute. reflexivity. Qed.

Lemma gt_num_spec (x y : Q) : gt_num x y = true ↔ (y < x)%Q.
Proof.
  unfold gt_num. rewrite negb_true_iff, <- not_true_iff_false, Qle_bool_iff.
  split; [apply Qnot_le_lt | apply Qlt_not_le].
Qed.

(** ** Loops that push onto an array *)

Lemma foldl_push {A W} (f : list W → A → list W) (g : A → list W) :
  (∀ acc x, f acc x = acc ++ g x) →
  ∀ l acc, foldl f acc l = acc ++ flat_map g l.
Proof.
  intros Hf. induction l as [|x l IH]; intros acc; simpl.
  - by rewrite app_nil_r.
  - by rewrite IH, Hf, <- app_assoc.
Qed.

Lemma flat_map_ext_elem {A B} (f g : A → list B) (l : list A) :
  (∀ x, x ∈ l → f x = g x) → flat_map f l = flat_map g l.
Proof.
  induction l as [|x l IH]; intros H; simpl; [done|].
  rewrite H by apply list_elem_of_here.
  rewrite IH; [done|]. intros y Hy. by apply H, list_elem_of_further.
Qed.

Lemma lookup_map {A B} (f : A → B) (l : list A) :
  ∀ k, map f l !! k = f <$> l !! k.
Proof. induction l as [|x l IH]; intros [|k]; simpl; try done. Qed.

Section ForPairs.

Context {A W : Type}.
Variable emit : A → A → list W.
Variable body : list W → A → A → list W.
Hypothesis body_push : ∀ acc x y, body acc x y = acc ++ emit x y.

Lemma forPairs_inner (arr : list A) i x :
  arr !! i = Some x →
  ∀ rest pre acc,
    arr = pre ++ rest →
    foldl (fun acc j =>
             match arr !! i, arr !! j with
             | Some x, Some y => body acc x y
             | _, _ => acc
             end)
          acc (seq (length pre) (length rest))
    = acc ++ flat_map (emit x) rest.
Proof.
  intros Hi. induction rest as [|y rest IH]; intros pre acc Harr; simpl.
  - by rewrite app_nil_r.
  - rewrite Hi in IH |- *. rewrite Harr at 1.
    rewrite list_lookup_middle by done.
    rewrite body_push.
    specialize (IH (pre ++ [y]) (acc ++ emit x y)).
    rewrite length_app, Nat.add_1_r in IH.
    rewrite IH by (by rewrite <- app_assoc).
    by rewrite <- app_assoc.
Qed.

Lemma forPairs_outer (arr : list A) :
  ∀ rest pre acc,
    arr = pre ++ rest →
    foldl (fun acc i =>
             foldl (fun acc j =>
                      match arr !! i, arr !! j with
                      | Some x, Some y => body acc x y
                      | _, _ => acc
                      end)
                   acc (seq (S i) (length arr - S i)))
          acc (seq (length pre) (length rest))
    = acc ++ flat_map (fun '(x, y) => emit x y) (pairs rest).
Proof.
  induction rest as [|x rest IH]; intros pre acc Harr; simpl.
  - by rewrite app_nil_r.
  - assert (arr !! length pre = Some x) as Hx
      by (rewrite Harr; by apply list_lookup_middle).
    replace (length arr - S (length pre)) with (length rest)
      by (rewrite Harr, length_app; simpl; lia).
    pose proof (forPairs_inner arr (length pre) x Hx rest (pre ++ [x]) acc)
      as Hin.
    rewrite length_app, Nat.add_1_r in Hin.
    rewrite Hin by (by rewrite <- app_assoc).
    specialize (IH (pre ++ [x]) (acc ++ flat_map (emit x) rest)).
    rewrite length_app, Nat.add_1_r in IH.
    rewrite IH by (by rewrite <- app_assoc).
    rewrite flat_map_app, <- app_assoc. do 2 f_equal.
    clear. induction rest as [|y rest IH]; simpl; [done | by rewrite IH].
Qed.

(** The two loops push, pair after pair, what the body emits. *)
Lemma forPairs_pairs (arr : list A) (acc : list W) :
  forPairs arr body acc = acc ++ flat_map (fun '(x, y) => emit x y) (pairs arr).
Proof. apply (forPairs_outer arr arr [] acc). done. Qed.

End ForPairs.

Lemma length_pairs {A} (l : list A) :
  2 * length (pairs l) = length l * (length l - 1).
Proof.
  induction l as [|x l IH]; simpl; [done|].
  rewrite length_app, length_map. simpl in IH.
  replace (length l - 0) with (length l) by lia.
  destruct (length l) as [|n] eqn:Hn; simpl in *; [lia|].
  replace (n - 0) with n in IH by lia. nia.
Qed.

Lemma elem_of_pairs {A} (l : list A) x y :
  (x, y) ∈ pairs l
  ↔ ∃ i j, i < j ∧ l !! i = Some x ∧ l !! j = Some y.
Proof.
  induction l as [|z l IH]; simpl.
  - split; [by intros ?%elem_of_nil | by intros (i & j & _ & ? & _)].
  - rewrite elem_of_app, IH. split.
    + intros [Hin|(i & j & Hij & Hi & Hj)].
      * apply list_elem_of_In, in_map_iff in Hin as (y' & [= <- <-] & Hy).
        apply list_elem_of_In, list_elem_of_lookup in Hy as [j Hj].
        exists 0, (S j). split; [lia | done].
      * exists (S i), (S j). split; [lia | done].
    + intros (i & j & Hij & Hi & Hj). destruct j as [|j]; [lia|].
      destruct i as [|i].
      * left. injection Hi as ->. apply list_elem_of_In, in_map_iff.
        exists y. split; [done|]. apply list_elem_of_In.
        by eapply list_elem_of_lookup_2.
      * right. exists i, j. split; [lia | done].
Qed.

Lemma pairs_distinct {A} (l : list A) x y :
  NoDup l → (x, y) ∈ pairs l → x ≠ y.
Proof.
  intros Hnd (i & j & Hij & Hi & Hj)%elem_of_pairs ->.
  pose proof (NoDup_lookup _ _ _ _ Hnd Hi Hj). lia.
Qed.

Lemma pairs_elems {A} (l : list A) x y : (x, y) ∈ pairs l → x ∈ l ∧ y ∈ l.
Proof.
  intros (i & j & _ & Hi & Hj)%elem_of_pairs.
  split; by eapply list_elem_of_lookup_2.
Qed.

Lemma pairs_one_value {A} (l : list A) x0 :
  NoDup l → (∀ x, x ∈ l → x = x0) → pairs l = [].
Proof.
  intros Hnd Hall. destruct l as [|x [|y l]]; try done.
  exfalso. apply NoDup_cons in Hnd as [Hx _]. apply Hx.
  rewrite (Hall x), <- (Hall y);
    [apply list_elem_of_here
    | apply list_elem_of_further, list_elem_of_here
    | apply list_elem_of_here].
Qed.

Lemma pairs_total {A} (l : list A) x y :
  x ∈ l → y ∈ l → x ≠ y → (x, y) ∈ pairs l ∨ (y, x) ∈ pairs l.
Proof.
  intros [i Hi]%list_elem_of_lookup [j Hj]%list_elem_of_lookup Hne.
  rewrite !elem_of_pairs.
  destruct (Nat.lt_trichotomy i j) as [?|[->|?]].
  - left. by exists i, j.
  - congruence.
  - right. by exists j, i.
Qed.

(** ** Sets and maps in insertion order *)

Lemma foldl_Set_add_elem l : ∀ acc x,
  x ∈ foldl Set_add acc l ↔ x ∈ acc ∨ x ∈ l.
Proof.
  induction l as [|y l IH]; intros acc x; simpl.
  - rewrite elem_of_nil. tauto.
  - rewrite IH, elem_of_cons. unfold Set_add. case_decide.
    + split; [tauto|]. intros [?|[->|?]]; tauto.
    + rewrite elem_of_app, list_elem_of_singleton. tauto.
Qed.

Lemma foldl_Set_add_NoDup l : ∀ acc, NoDup acc → NoDup (foldl Set_add acc l).
Proof.
  induction l as [|y l IH]; intros acc Hacc; simpl; [done|].
  apply IH. unfold Set_add. case_decide; [done|].
  apply NoDup_app. split; [done|]. split; [|apply NoDup_singleton].
  by intros x Hx ->%list_elem_of_singleton.
Qed.

Lemma dedup_elem l x : x ∈ dedup l ↔ x ∈ l.
Proof.
  unfold dedup. rewrite foldl_Set_add_elem, elem_of_nil. tauto.
Qed.

Lemma dedup_NoDup l : NoDup (dedup l).
Proof. apply foldl_Set_add_NoDup, NoDup_nil_2. Qed.

Lemma dedup_snoc l x : dedup (l ++ [x]) = Set_add (dedup l) x.
Proof. unfold dedup. by rewrite foldl_app. Qed.

Section MapOfKeys.

Context {V : Type}.
Implicit Types (f : string → V) (l : list string).

Lemma Map_get_map f l k :
  Map_get (map (fun k' => (k', f k')) l) k
  = if decide (k ∈ l) then Some (f k) else None.
Proof.
  induction l as [|k' l IH]; cbn [Map_get map].
  - rewrite decide_False; [done | apply not_elem_of_nil].
  - destruct (decide (k' = k)) as [->|Hne].
    + rewrite decide_True; [done | apply list_elem_of_here].
    + rewrite IH. destruct (decide (k ∈ l)).
      * rewrite decide_True; [done | by apply list_elem_of_further].
      * rewrite decide_False; [done|].
        intros [?|?]%elem_of_cons; congruence.
Qed.

Lemma Map_set_map_elem f l k v :
  NoDup l → k ∈ l →
  Map_set (map (fun k' => (k', f k')) l) k v
  = map (fun k' => (k', if decide (k' = k) then v else f k')) l.
Proof.
  induction l as [|k' l IH]; intros Hnd Hk; simpl.
  - by apply elem_of_nil in Hk.
  - apply NoDup_cons in Hnd as [Hk' Hnd].
    destruct (decide (k' = k)) as [->|Hne].
    + f_equal. apply map_ext_in. intros k' Hin%list_elem_of_In.
      rewrite decide_False; [done | congruence].
    + f_equal. apply IH; [done|].
      apply elem_of_cons in Hk as [?|?]; congruence.
Qed.

Lemma Map_set_map_new f l k v :
  k ∉ l →
  Map_set (map (fun k' => (k', f k')) l) k v
  = map (fun k' => (k', f k')) l ++ [(k, v)].
Proof.
  induction l as [|k' l IH]; intros Hk; simpl; [done|].
  apply not_elem_of_cons in Hk as [Hne Hk].
  rewrite decide_False by congruence. f_equal. by apply IH.
Qed.

End MapOfKeys.

(** ** The multimap of the detectors *)

Lemma valuesOf_snoc entries k v k' :
  valuesOf (entries ++ [(k, v)]) k'
  = valuesOf entries k' ++ (if decide (k = k') then [v] else []).
Proof.
  unfold valuesOf. rewrite filter_app, map_app. f_equal.
  rewrite filter_cons, filter_nil. simpl. by case_decide.
Qed.

Lemma valuesOf_elem entries k v :
  v ∈ valuesOf entries k ↔ (k, v) ∈ entries.
Proof.
  unfold valuesOf. rewrite list_elem_of_In, in_map_iff. split.
  - intros ([k' v'] & <- & Hin). apply list_elem_of_In in Hin.
    apply list_elem_of_filter in Hin as [Hk Hin]. simpl in *. by subst.
  - intros Hin. exists (k, v). split; [done|].
    apply list_elem_of_In, list_elem_of_filter. done.
Qed.

Lemma valuesOf_nil entries k : k ∉ map fst entries → valuesOf entries k = [].
Proof.
  intros Hk. destruct (valuesOf entries k) as [|v vs] eqn:Hv; [done|].
  exfalso. apply Hk.
  assert (v ∈ valuesOf entries k) as Hin by (rewrite Hv; apply list_elem_of_here).
  apply valuesOf_elem in Hin.
  apply list_elem_of_In, in_map_iff. exists (k, v).
  split; [done | by apply list_elem_of_In].
Qed.

(** The map that the loops build holds, in the order of their first entry,
    the distinct keys, each with the ids of all its entries. *)
Lemma groupIds_grouped entries : groupIds entries [] = grouped entries.
Proof.
  induction entries as [|[k v] entries IH] using rev_ind; [done|].
  unfold groupIds in *. rewrite foldl_app. simpl. rewrite IH.
  unfold grouped, recordId. rewrite map_app. simpl. rewrite dedup_snoc.
  rewrite Map_get_map. unfold Set_add.
  destruct (decide (k ∈ dedup (map fst entries))) as [Hk|Hk]; simpl.
  - rewrite Map_set_map_elem by (done || apply dedup_NoDup).
    apply map_ext. intros k'. rewrite valuesOf_snoc.
    destruct (decide (k' = k)) as [->|Hne].
    + by rewrite decide_True.
    + rewrite decide_False by congruence. by rewrite app_nil_r.
  - rewrite Map_set_map_new by done. rewrite map_app. simpl. f_equal.
    + apply map_ext_in. intros k' Hk'%list_elem_of_In.
      rewrite valuesOf_snoc, decide_False, app_nil_r; [done|].
      intros ->. done.
    + rewrite valuesOf_snoc, decide_True by done.
      rewrite valuesOf_nil; [done|]. by rewrite <- dedup_elem.
Qed.

Lemma groupIds_app es1 es2 m :
  groupIds (es1 ++ es2) m = groupIds es2 (groupIds es1 m).
Proof. apply foldl_app. Qed.

Lemma nested_groupIds (step : string → JsMap (list string) → string
                              → JsMap (list string))
    (keysOf : string → list string) :
  (∀ pid m account,
     step pid m account = groupIds (map (fun k => (k, pid)) (keysOf account)) m) →
  ∀ personas m,
    foldl (fun m persona =>
             foldl (step (id persona)) m (accounts (privateData persona)))
          m personas
    = groupIds (personaEntries keysOf personas) m.
Proof.
  intros Hstep. induction personas as [|persona personas IH]; intros m; [done|].
  simpl. rewrite IH. unfold personaEntries. simpl. rewrite groupIds_app.
  f_equal. generalize (accounts (privateData persona)). clear -Hstep.
  intros accs. revert m. induction accs as [|a accs IH]; intros m; [done|].
  simpl. rewrite IH, groupIds_app. by rewrite Hstep.
Qed.

Lemma Map_keys_grouped entries :
  Map_keys (grouped entries) = dedup (map fst entries).
Proof.
  unfold Map_keys, grouped. rewrite map_map. simpl. apply map_id.
Qed.

Lemma Map_get_grouped entries k :
  k ∈ dedup (map fst entries) →
  Map_get (grouped entries) k = Some (valuesOf entries k).
Proof. intros Hk. unfold grouped. by rewrite Map_get_map, decide_True. Qed.

Lemma elem_of_personaEntries keysOf personas k pid :
  (k, pid) ∈ personaEntries keysOf personas
  ↔ ∃ persona account,
      persona ∈ personas ∧ id persona = pid
      ∧ account ∈ accounts (privateData persona) ∧ k ∈ keysOf account.
Proof.
  unfold personaEntries. rewrite list_elem_of_In, in_flat_map. split.
  - intros (persona & Hp & Hin). apply in_flat_map in Hin as (a & Ha & Hin).
    apply in_map_iff in Hin as (k' & [= -> <-] & Hk).
    exists persona, a. by rewrite !list_elem_of_In.
  - intros (persona & a & Hp & <- & Ha & Hk). exists persona.
    split; [by apply list_elem_of_In|]. apply in_flat_map. exists a.
    split; [by apply list_elem_of_In|]. apply in_map_iff. exists k.
    split; [done | by apply list_elem_of_In].
Qed.

(** ** The account-overlap detector *)

Lemma accountMapOf_grouped personas :
  accountMapOf personas = grouped (accountEntries personas).
Proof.
  rewrite <- groupIds_grouped. unfold accountMapOf, accountEntries.
  by apply nested_groupIds.
Qed.

Lemma detectAccountOverlaps_grouped personas :
  detectAccountOverlaps personas
  = flat_map (fun '(account, personaIds) =>
                if 1 <? length personaIds
                then [overlapWarning account personaIds] else [])
             (grouped (accountEntries personas)).
Proof.
  unfold detectAccountOverlaps. rewrite accountMapOf_grouped.
  rewrite (foldl_push _ (fun '(account, personaIds) =>
                           if 1 <? length personaIds
                           then [overlapWarning account personaIds] else []));
    [done|].
  intros acc [account ids]. destruct (1 <? length ids); by rewrite ?app_nil_r.
Qed.

(** Every warning of the overlap detector is about an account of some
    persona and lists one id per occurrence of the account, at least two. *)
Lemma detectAccountOverlaps_elem personas w :
  w ∈ detectAccountOverlaps personas →
  ∃ account,
    w = overlapWarning account (valuesOf (accountEntries personas) account)
    ∧ 2 ≤ length (valuesOf (accountEntries personas) account)
    ∧ ∃ persona, persona ∈ personas
                 ∧ account ∈ accounts (privateData persona).
Proof.
  rewrite detectAccountOverlaps_grouped, list_elem_of_In, in_flat_map.
  intros ([account ids] & Hin & Hw). unfold grouped in Hin.
  apply in_map_iff in Hin as (k & [= -> <-] & Hk).
  destruct (Nat.ltb_spec 1 (length (valuesOf (accountEntries personas) account)))
    as [Hlen|Hlen]; [|by destruct Hw].
  destruct Hw as [<-|[]]. exists account. split; [done|]. split; [done|].
  apply list_elem_of_In, dedup_elem, list_elem_of_In, in_map_iff in Hk
    as ([k pid] & <- & Hin%list_elem_of_In).
  apply elem_of_personaEntries in Hin as (persona & a & Hp & _ & Ha & Hk).
  apply list_elem_of_singleton in Hk as ->. by exists persona.
Qed.

(** C1: the overlap detector should warn about an account only when two
    distinct personas hold it, and should list each persona once.  On a
    persona that lists the same account twice next to a persona without
    accounts, the detector of the source warns all the same, and lists that
    persona twice: one persona only holds the account, and the ids of the
    warning repeat. *)
Theorem detectAccountOverlaps_same_persona_twice :
  detectAccountOverlaps [mkPersona "P1" ["x:@a"; "x:@a"] EmptyString;
                         mkPersona "P2" [] EmptyString]
  = [{| type := account_overlap;
        description := overlapDescription "x:@a";
        severity := high;
        affectedPersonas := ["P1"; "P1"] |}]
  ∧ analyzePrivacy [mkPersona "P1" ["x:@a"; "x:@a"] EmptyString;
                    mkPersona "P2" [] EmptyString]
    = [{| type := account_overlap;
          description := overlapDescription "x:@a";
          severity := high;
          affectedPersonas := ["P1"; "P1"] |}]
  ∧ map id (filter (fun persona => "x:@a" ∈ accounts (privateData persona))
                   [mkPersona "P1" ["x:@a"; "x:@a"] EmptyString;
                    mkPersona "P2" [] EmptyString])
    = ["P1"]
  ∧ bool_decide (NoDup ["P1"; "P1"]) = false.
Proof. repeat split; by vm_compute. Qed.

(** ** Splitting an account at the colons *)

Lemma split_nonempty c s : Str.split c s ≠ [].
Proof.
  destruct s as [|c' s]; simpl; [done|].
  case_decide; [done|]. by destruct (Str.split c s).
Qed.

Lemma split_length c s : length (Str.split c s) = S (Str.count c s).
Proof.
  induction s as [|c' s IH]; simpl; [done|].
  case_decide; simpl; [by rewrite IH|].
  destruct (Str.split c s); simpl in *; lia.
Qed.

Lemma split_inv c : ∀ s p rest,
  Str.split c s = p :: rest →
  Str.count c p = 0
  ∧ ((rest = [] ∧ s = p)
     ∨ ∃ s', s = p +:+ String c s' ∧ Str.split c s' = rest).
Proof.
  induction s as [|c' s IH]; intros p rest; simpl.
  - intros [= <- <-]. split; [done | by left].
  - case_decide as Hc.
    + intros [= <- <-]. subst c'. split; [done|]. right. by exists s.
    + destruct (Str.split c s) as [|piece rest0] eqn:Hs;
        [by apply split_nonempty in Hs|].
      intros [= <- <-]. destruct (IH piece rest0 eq_refl) as [Hp Hrest].
      split; [simpl; by rewrite decide_False|].
      destruct Hrest as [[-> ->]|(s' & -> & Hs')]; [by left|].
      right. by exists s'.
Qed.

Lemma split_plain c p : Str.count c p = 0 → Str.split c p = [p].
Proof.
  induction p as [|c' p IH]; simpl; [done|].
  case_decide; [done|]. intros Hp. by rewrite IH.
Qed.

Lemma split_app c p s :
  Str.count c p = 0 → Str.split c (p +:+ String c s) = p :: Str.split c s.
Proof.
  induction p as [|c' p IH]; simpl.
  - intros _. by rewrite decide_True.
  - case_decide; [done|]. intros Hp. by rewrite IH.
Qed.

(** An account has a username exactly when it is a platform, one colon and
    a name, neither of which holds a colon; the username is the lowercased
    name. *)
Lemma usernameOf_spec account u :
  usernameOf account = Some u
  ↔ ∃ platform part,
      account = platform +:+ String Str.colon part
      ∧ Str.count Str.colon platform = 0
      ∧ Str.count Str.colon part = 0
      ∧ u = Str.toLowerCase part.
Proof.
  unfold usernameOf. split.
  - destruct (Str.split Str.colon account) as [|p1 [|p2 [|p3 rest]]] eqn:Hs;
      try done.
    intros [= <-]. apply split_inv in Hs as [Hp1 [[? _]|(s' & -> & Hs')]];
      [done|].
    apply split_inv in Hs' as [Hp2 [[_ ->]|(s'' & _ & Hs'')]];
      [|by apply split_nonempty in Hs''].
    by exists p1, p2.
  - intros (platform & part & -> & Hp & Hn & ->).
    by rewrite split_app, split_plain.
Qed.

Lemma usernameOf_colons account :
  is_Some (usernameOf account) ↔ Str.count Str.colon account = 1.
Proof.
  pose proof (split_length Str.colon account) as Hlen.
  unfold usernameOf.
  destruct (Str.split Str.colon account) as [|p1 [|p2 [|p3 rest]]];
    simpl in Hlen; split; intros H; try lia; try (by destruct H).
Qed.

Lemma elem_of_usernameKeys account u :
  u ∈ usernameKeys account ↔ usernameOf account = Some u.
Proof.
  unfold usernameKeys. destruct (usernameOf account) as [u'|].
  - rewrite list_elem_of_singleton. split; congruence.
  - rewrite elem_of_nil. split; [done | discriminate].
Qed.

(** ** The username-reuse detector *)

Lemma usernameMapOf_grouped personas :
  usernameMapOf personas = grouped (usernameEntries personas).
Proof.
  rewrite <- groupIds_grouped. unfold usernameMapOf, usernameEntries.
  apply nested_groupIds. intros pid m account.
  unfold recordUsername, usernameKeys, usernameOf.
  destruct (Str.split Str.colon account) as [|p1 [|p2 [|p3 rest]]]; done.
Qed.

Lemma usernameStep_push m acc u v :
  usernameStep m acc u v = acc ++ usernameStep m [] u v.
Proof.
  unfold usernameStep. destruct (gt_num _ _); by rewrite ?app_nil_r.
Qed.

Lemma detectUsernamePatterns_pairs personas :
  detectUsernamePatterns personas
  = flat_map
      (fun '(u, v) =>
         if gt_num (calculateStringSimilarity u v) (7 # 10)
         then [{| type := username_reuse;
                  description := usernameDescription u v;
                  severity := medium;
                  affectedPersonas :=
                    dedup (valuesOf (usernameEntries personas) u
                           ++ valuesOf (usernameEntries personas) v) |}]
         else [])
      (pairs (dedup (map fst (usernameEntries personas)))).
Proof.
  unfold detectUsernamePatterns.
  rewrite (forPairs_pairs (usernameStep (usernameMapOf personas) []))
    by apply usernameStep_push.
  rewrite usernameMapOf_grouped, Map_keys_grouped. simpl.
  apply flat_map_ext_elem. intros [u v] [Hu Hv]%pairs_elems.
  unfold usernameStep, usernameWarning.
  by rewrite !Map_get_grouped.
Qed.

Lemma dedup_one_value l pid :
  l ≠ [] → (∀ x, x ∈ l → x = pid) → dedup l = [pid].
Proof.
  intros Hne Hall.
  pose proof (dedup_NoDup l) as Hnd.
  assert (∀ x, x ∈ dedup l → x = pid) as Hall'.
  { intros x Hx. exact (Hall x (proj1 (dedup_elem l x) Hx)). }
  assert (∃ a, a ∈ dedup l) as [a Ha].
  { destruct l as [|a l]; [done|]. exists a.
    apply (proj2 (dedup_elem (a :: l) a)), list_elem_of_here. }
  destruct (dedup l) as [|b [|c r]].
  - by apply elem_of_nil in Ha.
  - f_equal. apply Hall', list_elem_of_here.
  - apply NoDup_cons in Hnd as [Hnotin _]. exfalso. apply Hnotin.
    rewrite (Hall' b) by apply list_elem_of_here.
    rewrite <- (Hall' c) by apply list_elem_of_further, list_elem_of_here.
    apply list_elem_of_here.
Qed.

(** C2: the username detector collects, persona after persona, the
    lowercased second part of every account that has exactly two parts
    around colons, and skips the other accounts; it compares every pair of
    distinct collected usernames, once, and puts out, exactly for the pairs
    whose similarity is above 0.7, a [username_reuse] warning of severity
    medium whose [affectedPersonas] are, without repetition, the ids of the
    personas that hold either username.  When only one distinct username
    was collected, as for one persona with the same username on two
    platforms, there is no pair and no warning.  The comparison is between
    username strings, whoever holds them: when the two usernames of a pair
    above 0.7 are held by one persona only, the warning is put out all the
    same and names this persona alone. *)
Theorem detectUsernamePatterns_spec (personas : list Persona) :
  let entries := usernameEntries personas in
  let usernames := dedup (map fst entries) in
  (∀ account,
     (is_Some (usernameOf account) ↔ Str.count Str.colon account = 1)
     ∧ ∀ u, usernameOf account = Some u
            ↔ ∃ platform part,
                account = platform +:+ String Str.colon part
                ∧ Str.count Str.colon platform = 0
                ∧ Str.count Str.colon part = 0
                ∧ u = Str.toLowerCase part)
  ∧ (∀ u pid,
       pid ∈ valuesOf entries u
       ↔ ∃ persona account,
           persona ∈ personas ∧ id persona = pid
           ∧ account ∈ accounts (privateData persona)
           ∧ usernameOf account = Some u)
  ∧ NoDup usernames
  ∧ (∀ u, u ∈ usernames ↔ ∃ pid, pid ∈ valuesOf entries u)
  ∧ (∀ u v, (u, v) ∈ pairs usernames → u ∈ usernames ∧ v ∈ usernames ∧ u ≠ v)
  ∧ (∀ u v, u ∈ usernames → v ∈ usernames → u ≠ v →
       ((u, v) ∈ pairs usernames ∨ (v, u) ∈ pairs usernames)
       ∧ ¬ ((u, v) ∈ pairs usernames ∧ (v, u) ∈ pairs usernames))
  ∧ detectUsernamePatterns personas
    = flat_map
        (fun '(u, v) =>
           if gt_num (calculateStringSimilarity u v) (7 # 10)
           then [{| type := username_reuse;
                    description := usernameDescription u v;
                    severity := medium;
                    affectedPersonas :=
                      dedup (valuesOf entries u ++ valuesOf entries v) |}]
           else [])
        (pairs usernames)
  ∧ (∀ x y, gt_num x y = true ↔ (y < x)%Q)
  ∧ (∀ u v, NoDup (dedup (valuesOf entries u ++ valuesOf entries v))
       ∧ ∀ pid, pid ∈ dedup (valuesOf entries u ++ valuesOf entries v)
                ↔ pid ∈ valuesOf entries u ∨ pid ∈ valuesOf entries v)
  ∧ (∀ u0, (∀ e, e ∈ entries → e.1 = u0) →
       detectUsernamePatterns personas = [])
  ∧ (∀ u v pid,
       (u, v) ∈ pairs usernames →
       gt_num (calculateStringSimilarity u v) (7 # 10) = true →
       (∀ holder, holder ∈ valuesOf entries u ∨ holder ∈ valuesOf entries v →
                  holder = pid) →
       {| type := username_reuse;
          description := usernameDescription u v;
          severity := medium;
          affectedPersonas := [pid] |} ∈ detectUsernamePatterns personas).
Proof.
  cbv zeta.
  assert (∀ u, u ∈ dedup (map fst (usernameEntries personas))
               ↔ ∃ pid, pid ∈ valuesOf (usernameEntries personas) u) as Hkeys.
  { intros u. rewrite dedup_elem, list_elem_of_In, in_map_iff. split.
    - intros ([u' pid] & <- & Hin). exists pid.
      by apply valuesOf_elem, list_elem_of_In.
    - intros [pid Hin%valuesOf_elem]. exists (u, pid).
      split; [done | by apply list_elem_of_In]. }
  split; [|split; [|split; [|split; [|split; [|split; [|split;
    [|split; [|split; [|split]]]]]]]]].
  - intros account. split; [apply usernameOf_colons|].
    intros u. apply usernameOf_spec.
  - intros u pid. rewrite valuesOf_elem. unfold usernameEntries.
    rewrite elem_of_personaEntries.
    by setoid_rewrite elem_of_usernameKeys.
  - apply dedup_NoDup.
  - apply Hkeys.
  - intros u v Huv. destruct (pairs_elems _ _ _ Huv) as [Hu Hv].
    repeat split; [done | done |].
    by eapply pairs_distinct; [apply dedup_NoDup|].
  - intros u v Hu Hv Hne. split; [by apply pairs_total|].
    intros [(i & j & Hij & Hi & Hj)%elem_of_pairs
            (i' & j' & Hij' & Hi' & Hj')%elem_of_pairs].
    pose proof (dedup_NoDup (map fst (usernameEntries personas))) as Hnd.
    pose proof (NoDup_lookup _ _ _ _ Hnd Hi Hj').
    pose proof (NoDup_lookup _ _ _ _ Hnd Hj Hi'). lia.
  - apply detectUsernamePatterns_pairs.
  - apply gt_num_spec.
  - intros u v. split; [apply dedup_NoDup|].
    intros pid. by rewrite dedup_elem, elem_of_app.
  - intros u0 Hall. rewrite detectUsernamePatterns_pairs.
    rewrite (pairs_one_value _ u0); [done | apply dedup_NoDup |].
    intros u Hu. apply dedup_elem, list_elem_of_In, in_map_iff in Hu
      as (e & <- & He). by apply Hall, list_elem_of_In.
  - intros u v pid Huv Hsim Hone.
    rewrite detectUsernamePatterns_pairs.
    apply list_elem_of_In, in_flat_map. exists (u, v).
    split; [by apply list_elem_of_In|].
    rewrite Hsim. left. f_equal. apply dedup_one_value.
    + destruct (pairs_elems _ _ _ Huv) as [[holder Hu]%Hkeys _].
      intros Hnil. destruct (valuesOf (usernameEntries personas) u);
        [by apply elem_of_nil in Hu | done].
    + intros holder Hin%elem_of_app. by apply Hone.
Qed.

Lemma detectUsernamePatterns_spec_witness :
  detectUsernamePatterns
    [mkPersona "P1" ["twitter:Bob"; "github:bob"; "nocolon"; "a:b:c"]
       EmptyString]
  = []
  ∧ ("alice123" ∈ dedup (map fst (usernameEntries
                               [mkPersona "P1" ["x:alice123"] EmptyString;
                                mkPersona "P2" ["y:Alice124"] EmptyString]))
     ∧ "alice124" ∈ dedup (map fst (usernameEntries
                               [mkPersona "P1" ["x:alice123"] EmptyString;
                                mkPersona "P2" ["y:Alice124"] EmptyString]))
     ∧ "alice123" ≠ "alice124")
  ∧ {| type := username_reuse;
       description := usernameDescription "alice123" "alice124";
       severity := medium;
       affectedPersonas := ["P1"] |}
    ∈ detectUsernamePatterns
        [mkPersona "P1" ["x:alice123"; "y:alice124"] EmptyString;
         mkPersona "P2" [] EmptyString].
Proof.
  split; [|split].
  - apply (proj1 (proj2 (proj2 (proj2 (proj2 (proj2 (proj2 (proj2 (proj2
             (proj2 (detectUsernamePatterns_spec _)))))))))) "bob").
    intros e He. vm_compute in He.
    apply elem_of_cons in He as [->|He]; [reflexivity|].
    apply elem_of_cons in He as [->|He]; [reflexivity|].
    by apply elem_of_nil in He.
  - apply (proj1 (proj2 (proj2 (proj2 (proj2
             (detectUsernamePatterns_spec
                [mkPersona "P1" ["x:alice123"] EmptyString;
                 mkPersona "P2" ["y:Alice124"] EmptyString])))))
             "alice123" "alice124").
    vm_compute. apply list_elem_of_here.
  - apply (proj2 (proj2 (proj2 (proj2 (proj2 (proj2 (proj2 (proj2 (proj2
             (proj2 (detectUsernamePatterns_spec
                       [mkPersona "P1" ["x:alice123"; "y:alice124"]
                          EmptyString;
                        mkPersona "P2" [] EmptyString]))))))))))
             "alice123" "alice124" "P1").
    + vm_compute. apply list_elem_of_here.
    + vm_compute. reflexivity.
    + intros holder Hh. vm_compute in Hh.
      destruct Hh as [Hh|Hh];
        (apply elem_of_cons in Hh as [->|Hh];
         [reflexivity | by apply elem_of_nil in Hh]).
Defined.

Example detectUsernamePatterns_alice :
  detectUsernamePatterns [mkPersona "P1" ["x:alice123"] EmptyString;
                          mkPersona "P2" ["y:Alice124"; "z:bob"] EmptyString]
  = [{| type := username_reuse;
        description := usernameDescription "alice123" "alice124";
        severity := medium;
        affectedPersonas := ["P1"; "P2"] |}].
Proof. vm_compute. reflexivity. Qed.

(** The comparison is between username strings, whoever holds them: two
    similar usernames of one persona give a warning that names this
    persona alone. *)
Example detectUsernamePatterns_within_persona :
  detectUsernamePatterns
    [mkPersona "P1" ["x:alice123"; "y:alice124"] EmptyString;
     mkPersona "P2" [] EmptyString]
  = [{| type := username_reuse;
        description := usernameDescription "alice123" "alice124";
        severity := medium;
        affectedPersonas := ["P1"] |}].
Proof. vm_compute. reflexivity. Qed.

(** C2, as the specification states it, fails in its last clause, that a
    similarity between the usernames of different personas is what is
    detected: here the first persona holds two similar usernames and the
    second persona holds none; the detector, and the analysis with it,
    returns a warning all the same, and the warning names the first persona
    alone.  So it is not true that every warning of the detector concerns
    two personas. *)
Lemma detectUsernamePatterns_spec_counterexample :
  detectUsernamePatterns
    [mkPersona "P1" ["x:alice123"; "y:alice124"] EmptyString;
     mkPersona "P2" [] EmptyString]
  = [{| type := username_reuse;
        description := usernameDescription "alice123" "alice124";
        severity := medium;
        affectedPersonas := ["P1"] |}]
  ∧ analyzePrivacy
      [mkPersona "P1" ["x:alice123"; "y:alice124"] EmptyString;
       mkPersona "P2" [] EmptyString]
    = [{| type := username_reuse;
          description := usernameDescription "alice123" "alice124";
          severity := medium;
          affectedPersonas := ["P1"] |}]
  ∧ ¬ (∀ personas w,
         w ∈ detectUsernamePatterns personas →
         ∃ pa pb, pa ∈ affectedPersonas w ∧ pb ∈ affectedPersonas w
                  ∧ pa ≠ pb).
Proof.
  split; [by vm_compute|]. split; [by vm_compute|].
  intros Hall.
  destruct (Hall [mkPersona "P1" ["x:alice123"; "y:alice124"] EmptyString;
                  mkPersona "P2" [] EmptyString]
                 {| type := username_reuse;
                    description := usernameDescription "alice123" "alice124";
                    severity := medium;
                    affectedPersonas := ["P1"] |})
    as (pa & pb & Ha & Hb & Hne).
  - vm_compute. apply list_elem_of_here.
  - simpl in Ha, Hb.
    apply list_elem_of_singleton in Ha, Hb. congruence.
Qed.

(** ** The metadata-similarity detector *)

Lemma truthy_spec s : truthy s = true ↔ s ≠ EmptyString.
Proof. by destruct s. Qed.

Lemma toLowerCase_empty s :
  Str.toLowerCase s = EmptyString ↔ s = EmptyString.
Proof. by destruct s. Qed.

Lemma metadataStep_push acc pa pb :
  metadataStep acc pa pb = acc ++ metadataStep [] pa pb.
Proof.
  unfold metadataStep.
  repeat match goal with |- context [if ?c then _ else _] => destruct c end;
    by rewrite ?app_nil_r.
Qed.

(** C6: the metadata detector visits the pairs of personas by position
    [i < j], in the order of the two loops; a pair with an empty [notes] on
    either side contributes nothing, and any other pair contributes exactly
    one [metadata_similarity] warning of severity low for the two ids when
    the similarity of the lowercased notes is above 0.5, and nothing
    otherwise. *)
Theorem detectMetadataSimilarities_spec (personas : list Persona) :
  detectMetadataSimilarities personas
  = flat_map (fun '(pa, pb) => metadataStep [] pa pb) (pairs personas)
  ∧ (∀ pa pb, (pa, pb) ∈ pairs personas
       ↔ ∃ i j, i < j ∧ personas !! i = Some pa ∧ personas !! j = Some pb)
  ∧ (∀ pa pb,
       let notesA := Str.toLowerCase (notes (privateData pa)) in
       let notesB := Str.toLowerCase (notes (privateData pb)) in
       (notes (privateData pa) = EmptyString
        ∨ notes (privateData pb) = EmptyString →
        metadataStep [] pa pb = [])
       ∧ (notes (privateData pa) ≠ EmptyString →
          notes (privateData pb) ≠ EmptyString →
          ((1 # 2 < calculateStringSimilarity notesA notesB)%Q →
           metadataStep [] pa pb
           = [{| type := metadata_similarity;
                 description := "Similar notes detected between personas";
                 severity := low;
                 affectedPersonas := [id pa; id pb] |}])
          ∧ ((calculateStringSimilarity notesA notesB <= 1 # 2)%Q →
             metadataStep [] pa pb = []))).
Proof.
  split; [|split].
  - unfold detectMetadataSimilarities.
    by rewrite (forPairs_pairs (metadataStep []) metadataStep metadataStep_push).
  - intros pa pb. apply elem_of_pairs.
  - intros pa pb notesA notesB. subst notesA notesB. unfold metadataStep.
    split.
    + intros [H|H]; rewrite H; simpl; [done | by rewrite andb_false_r].
    + intros Ha Hb.
      assert (truthy (Str.toLowerCase (notes (privateData pa))) = true) as ->
        by (apply truthy_spec; by rewrite toLowerCase_empty).
      assert (truthy (Str.toLowerCase (notes (privateData pb))) = true) as ->
        by (apply truthy_spec; by rewrite toLowerCase_empty).
      simpl. split; intros Hsim.
      * apply gt_num_spec in Hsim. by rewrite Hsim.
      * destruct (gt_num _ _) eqn:Hgt; [|done].
        apply gt_num_spec in Hgt. by apply Qlt_not_le in Hgt.
Qed.

Lemma detectMetadataSimilarities_spec_witness :
  metadataStep [] (mkPersona "P1" [] EmptyString) (mkPersona "P2" [] "note")
  = []
  ∧ metadataStep [] (mkPersona "P1" [] "Born in Paris")
                    (mkPersona "P2" [] "born in Parma")
    = [{| type := metadata_similarity;
          description := "Similar notes detected between personas";
          severity := low;
          affectedPersonas := ["P1"; "P2"] |}]
  ∧ metadataStep [] (mkPersona "P1" [] "alice") (mkPersona "P2" [] "bob") = [].
Proof.
  split; [|split].
  - apply (proj1 (proj2 (proj2 (detectMetadataSimilarities_spec [])) _ _)).
    left. reflexivity.
  - apply (proj2 (proj2 (proj2 (detectMetadataSimilarities_spec []))
                   (mkPersona "P1" [] "Born in Paris")
                   (mkPersona "P2" [] "born in Parma"))).
    + discriminate.
    + discriminate.
    + vm_compute. reflexivity.
  - apply (proj2 (proj2 (proj2 (detectMetadataSimilarities_spec []))
                   (mkPersona "P1" [] "alice") (mkPersona "P2" [] "bob"))).
    + discriminate.
    + discriminate.
    + vm_compute. discriminate.
Defined.

(** ** Orchestration *)

(** C5: with at most one persona the analysis returns nothing; with two or
    more it returns what the overlap detector, then the username detector,
    then the metadata detector return, one after the other and unchanged:
    nothing is merged or removed across the detectors. *)
Theorem analyzePrivacy_spec (personas : list Persona) :
  (length personas ≤ 1 → analyzePrivacy personas = [])
  ∧ (2 ≤ length personas →
     analyzePrivacy personas
     = detectAccountOverlaps personas ++ detectUsernamePatterns personas
       ++ detectMetadataSimilarities personas
     ∧ length (analyzePrivacy personas)
       = length (detectAccountOverlaps personas)
         + length (detectUsernamePatterns personas)
         + length (detectMetadataSimilarities personas)).
Proof.
  unfold analyzePrivacy. split; intros Hlen.
  - destruct (Nat.leb_spec (length personas) 1); [done | lia].
  - destruct (Nat.leb_spec (length personas) 1); [lia|].
    simpl. rewrite <- app_assoc. split; [done|].
    rewrite !length_app. lia.
Qed.

Lemma analyzePrivacy_spec_witness :
  analyzePrivacy [mkPersona "P1" ["x:@a"] "note"] = []
  ∧ analyzePrivacy [mkPersona "P1" ["x:@a"] "same note";
                    mkPersona "P2" ["x:@a"] "same note"]
    = detectAccountOverlaps [mkPersona "P1" ["x:@a"] "same note";
                             mkPersona "P2" ["x:@a"] "same note"]
      ++ detectUsernamePatterns [mkPersona "P1" ["x:@a"] "same note";
                                 mkPersona "P2" ["x:@a"] "same note"]
      ++ detectMetadataSimilarities [mkPersona "P1" ["x:@a"] "same note";
                                     mkPersona "P2" ["x:@a"] "same note"].
Proof.
  split.
  - apply (proj1 (analyzePrivacy_spec _)). simpl. lia.
  - apply (proj2 (analyzePrivacy_spec _)). simpl. lia.
Defined.

(** The same two personas appear in a warning of the overlap detector and
    in a warning of the metadata detector: both are kept. *)
Example analyzePrivacy_no_merge :
  analyzePrivacy [mkPersona "P1" ["x:@a"] "same note";
                  mkPersona "P2" ["x:@a"] "same note"]
  = [overlapWarning "x:@a" ["P1"; "P2"];
     metadataWarning (mkPersona "P1" ["x:@a"] "same note")
                     (mkPersona "P2" ["x:@a"] "same note")].
Proof. vm_compute. reflexivity. Qed.

(** ** Scoring *)

Lemma countType_cons t w ws :
  countType t (w :: ws)
  = (if decide (type w = t) then 1 else 0) + countType t ws.
Proof. unfold countType. rewrite filter_cons. by case_decide. Qed.

(** Rounding the weighted sum, in integers. *)
Lemma weighted_round (x y z : Z) :
  Math_round (inject_Z x * (5 # 10) + inject_Z y * (3 # 10)
              + inject_Z z * (2 # 10))%Q
  = ((5 * x + 3 * y + 2 * z + 5) / 10)%Z.
Proof.
  unfold Math_round.
  assert (inject_Z x * (5 # 10) + inject_Z y * (3 # 10)
          + inject_Z z * (2 # 10) + (1 # 2)
          == (5 * x + 3 * y + 2 * z + 5) # 10)%Q as ->
    by (unfold Qeq; simpl; lia).
  reflexivity.
Qed.

Lemma gradeOf_cases (s : Z) :
  ((s < 60)%Z → gradeOf s = "F")
  ∧ ((60 <= s < 70)%Z → gradeOf s = "D")
  ∧ ((70 <= s < 80)%Z → gradeOf s = "C")
  ∧ ((80 <= s < 90)%Z → gradeOf s = "B")
  ∧ ((90 <= s < 95)%Z → gradeOf s = "A")
  ∧ ((95 <= s)%Z → gradeOf s = "A+").
Proof.
  unfold gradeOf. repeat split; intros H;
    repeat (match goal with
            | |- context [(?x <? ?y)%Z] => destruct (Z.ltb_spec x y)
            end; try lia); done.
Qed.

(** C4: the score counts the warnings by type, takes the three sub-scores
    [max(0, 100 - 50 n)], [max(0, 100 - 25 n)] and [max(0, 100 - 15 n)],
    rounds their sum weighted by 0.5, 0.3 and 0.2, and grades the result by
    the first threshold it is below: 60 F, 70 D, 80 C, 90 B, 95 A, else A+
    (95 itself is A+).  One [account_overlap] warning alone gives account
    isolation 50, score 75 and grade C; no warning gives 100 everywhere and
    grade A+. *)
Theorem calculatePrivacyScore_spec (warnings : list PrivacyWarning) :
  let result := calculatePrivacyScore warnings in
  let overlapCount := Z.of_nat (countType account_overlap warnings) in
  let reuseCount := Z.of_nat (countType username_reuse warnings) in
  let metadataCount := Z.of_nat (countType metadata_similarity warnings) in
  (∀ t w ws, countType t [] = 0
             ∧ countType t (w :: ws)
               = (if decide (type w = t) then 1 else 0) + countType t ws)
  ∧ accountIsolation result = Z.max 0 (100 - overlapCount * 50)
  ∧ usernameUniqueness result = Z.max 0 (100 - reuseCount * 25)
  ∧ metadataSeparation result = Z.max 0 (100 - metadataCount * 15)
  ∧ score result
    = Math_round (inject_Z (accountIsolation result) * (5 # 10)
                  + inject_Z (usernameUniqueness result) * (3 # 10)
                  + inject_Z (metadataSeparation result) * (2 # 10))%Q
  ∧ score result
    = ((5 * accountIsolation result + 3 * usernameUniqueness result
        + 2 * metadataSeparation result + 5) / 10)%Z
  ∧ (0 <= score result <= 100)%Z
  ∧ ((score result < 60)%Z → grade result = "F")
  ∧ ((60 <= score result < 70)%Z → grade result = "D")
  ∧ ((70 <= score result < 80)%Z → grade result = "C")
  ∧ ((80 <= score result < 90)%Z → grade result = "B")
  ∧ ((90 <= score result < 95)%Z → grade result = "A")
  ∧ ((95 <= score result)%Z → grade result = "A+")
  ∧ gradeOf 95 = "A+"
  ∧ (∀ w, type w = account_overlap →
       calculatePrivacyScore [w]
       = {| score := 75; grade := "C"; accountIsolation := 50;
            usernameUniqueness := 100; metadataSeparation := 100 |})
  ∧ calculatePrivacyScore []
    = {| score := 100; grade := "A+"; accountIsolation := 100;
         usernameUniqueness := 100; metadataSeparation := 100 |}.
Proof.
  cbv zeta.
  assert (score (calculatePrivacyScore warnings)
    = ((5 * accountIsolation (calculatePrivacyScore warnings)
        + 3 * usernameUniqueness (calculatePrivacyScore warnings)
        + 2 * metadataSeparation (calculatePrivacyScore warnings) + 5) / 10)%Z)
    as Hscore by apply weighted_round.
  assert (0 <= score (calculatePrivacyScore warnings) <= 100)%Z as Hrange.
  { rewrite Hscore. simpl.
    split; [apply Z.div_le_lower_bound; lia|].
    apply Z.lt_succ_r, Z.div_lt_upper_bound; lia. }
  destruct (gradeOf_cases (score (calculatePrivacyScore warnings)))
    as (HF & HD & HC & HB & HA & HAp).
  split; [|split; [|split; [|split; [|split; [|split; [|split]]]]]];
    try done.
  - intros t w ws. split; [done | apply countType_cons].
  - repeat split; try done.
    intros [t d sv ids] Ht. simpl in Ht. subst t. reflexivity.
Qed.

Lemma calculatePrivacyScore_spec_witness :
  grade (calculatePrivacyScore
           [overlapWarning "a" []; overlapWarning "b" []]) = "F"
  ∧ grade (calculatePrivacyScore
             [overlapWarning "a" []; usernameWarning [] "u" "v";
              usernameWarning [] "u" "w"]) = "D"
  ∧ grade (calculatePrivacyScore [overlapWarning "x:@a" ["P1"; "P2"]]) = "C"
  ∧ grade (calculatePrivacyScore
             [usernameWarning [] "u" "v"; usernameWarning [] "u" "w";
              metadataWarning (mkPersona "P1" [] "n")
                              (mkPersona "P2" [] "n")]) = "B"
  ∧ grade (calculatePrivacyScore [usernameWarning [] "u" "v"]) = "A"
  ∧ grade (calculatePrivacyScore []) = "A+"
  ∧ calculatePrivacyScore [overlapWarning "x:@a" ["P1"; "P2"]]
    = {| score := 75; grade := "C"; accountIsolation := 50;
         usernameUniqueness := 100; metadataSeparation := 100 |}.
Proof.
  split; [|split; [|split; [|split; [|split; [|split]]]]].
  - apply (proj1 (proj2 (proj2 (proj2 (proj2 (proj2 (proj2 (proj2
             (calculatePrivacyScore_spec _))))))))).
    vm_compute. reflexivity.
  - apply (proj1 (proj2 (proj2 (proj2 (proj2 (proj2 (proj2 (proj2 (proj2
             (calculatePrivacyScore_spec _)))))))))).
    vm_compute. split; [discriminate | reflexivity].
  - apply (proj1 (proj2 (proj2 (proj2 (proj2 (proj2 (proj2 (proj2 (proj2
             (proj2 (calculatePrivacyScore_spec _))))))))))).
    vm_compute. split; [discriminate | reflexivity].
  - apply (proj1 (proj2 (proj2 (proj2 (proj2 (proj2 (proj2 (proj2 (proj2
             (proj2 (proj2 (calculatePrivacyScore_spec _)))))))))))).
    vm_compute. split; [discriminate | reflexivity].
  - apply (proj1 (proj2 (proj2 (proj2 (proj2 (proj2 (proj2 (proj2 (proj2
             (proj2 (proj2 (proj2 (calculatePrivacyScore_spec _))))))))))))).
    vm_compute. split; [discriminate | reflexivity].
  - apply (proj1 (proj2 (proj2 (proj2 (proj2 (proj2 (proj2 (proj2 (proj2
             (proj2 (proj2 (proj2 (proj2
                (calculatePrivacyScore_spec _)))))))))))))).
    vm_compute. discriminate.
  - apply (proj1 (proj2 (proj2 (proj2 (proj2 (proj2 (proj2 (proj2 (proj2
             (proj2 (proj2 (proj2 (proj2 (proj2 (proj2
                (calculatePrivacyScore_spec [])))))))))))))))).
    reflexivity.
Defined.

(** ** The quoted substring of a description *)

Lemma append_cons c (s1 s2 : string) :
  String c s1 +:+ s2 = String c (s1 +:+ s2).
Proof. reflexivity. Qed.

Lemma append_nil (s : string) : EmptyString +:+ s = s.
Proof. reflexivity. Qed.

Lemma append_assoc (s1 s2 s3 : string) :
  (s1 +:+ s2) +:+ s3 = s1 +:+ (s2 +:+ s3).
Proof.
  induction s1 as [|c s1 IH]; [done|]. by rewrite !append_cons, IH.
Qed.

Lemma spanNoQuote_app r post :
  Str.count Str.dquote r = 0 →
  Str.spanNoQuote (r +:+ String Str.dquote post) = (r, String Str.dquote post).
Proof.
  induction r as [|c r IH]; [rewrite append_nil|rewrite append_cons]; simpl.
  - intros _. by rewrite ?decide_True.
  - case_decide; [done|]. intros Hr. by rewrite IH.
Qed.

Lemma spanNoQuote_spec : ∀ s run rest,
  Str.spanNoQuote s = (run, rest) →
  s = run +:+ rest
  ∧ Str.count Str.dquote run = 0
  ∧ (rest = EmptyString ∨ ∃ rest', rest = String Str.dquote rest').
Proof.
  induction s as [|c s IH]; intros run rest; simpl.
  - intros [= <- <-]. repeat split. by left.
  - case_decide as Hc.
    + intros [= <- <-]. subst c. repeat split. right. by eexists.
    + destruct (Str.spanNoQuote s) as [run0 rest0].
      intros [= <- <-]. destruct (IH run0 rest0 eq_refl) as (-> & Hrun & Hrest).
      repeat split; [|done]. simpl. by rewrite decide_False.
Qed.

Lemma quoted_append r post :
  Str.quoted r +:+ post = String Str.dquote (r +:+ String Str.dquote post).
Proof.
  unfold Str.quoted. by rewrite append_cons, append_assoc, append_cons.
Qed.

(** The match names the run between the first two double quotes when that
    run is not empty. *)
Lemma matchQuoted_first pre r post :
  Str.count Str.dquote pre = 0 → r ≠ EmptyString →
  Str.count Str.dquote r = 0 →
  Str.matchQuoted (pre +:+ Str.quoted r +:+ post) = Some r.
Proof.
  intros Hpre Hr Hcount. rewrite quoted_append.
  induction pre as [|c pre IH];
    [rewrite append_nil|rewrite append_cons]; simpl in *.
  - rewrite ?decide_True by done. rewrite spanNoQuote_app by done.
    by destruct r.
  - case_decide; [done|]. by apply IH.
Qed.

Lemma matchQuoted_none d :
  Str.count Str.dquote d = 0 → Str.matchQuoted d = None.
Proof.
  induction d as [|c d IH]; simpl; [done|]. case_decide; [done|]. apply IH.
Qed.

(** A match is a non-empty run without double quote between two double
    quotes of the description. *)
Lemma matchQuoted_sound : ∀ d r,
  Str.matchQuoted d = Some r →
  r ≠ EmptyString ∧ Str.count Str.dquote r = 0
  ∧ ∃ pre post, d = pre +:+ Str.quoted r +:+ post.
Proof.
  induction d as [|c d IH]; intros r; simpl; [done|].
  assert (Str.matchQuoted d = Some r →
          r ≠ EmptyString ∧ Str.count Str.dquote r = 0
          ∧ ∃ pre post, String c d = pre +:+ Str.quoted r +:+ post) as Hrec.
  { intros (Hr & Hc & pre & post & ->)%IH. repeat split; try done.
    by exists (String c pre), post. }
  case_decide as Hc; [|done]. subst c.
  destruct (Str.spanNoQuote d) as [run rest] eqn:Hspan.
  destruct run as [|r0 run]; [done|]. destruct rest as [|q rest]; [done|].
  intros [= <-].
  apply spanNoQuote_spec in Hspan as (-> & Hrun & [?|[rest' [= -> ->]]]);
    [done|].
  repeat split; [done | done |].
  exists EmptyString, rest'. by rewrite quoted_append.
Qed.

(** No such run starts further left than the match. *)
Lemma matchQuoted_leftmost : ∀ d r,
  Str.matchQuoted d = Some r →
  ∃ pre post,
    d = pre +:+ Str.quoted r +:+ post
    ∧ ∀ pre' r' post',
        d = pre' +:+ Str.quoted r' +:+ post' →
        r' ≠ EmptyString → Str.count Str.dquote r' = 0 →
        String.length pre ≤ String.length pre'.
Proof.
  induction d as [|c d IH]; intros r; simpl; [done|].
  assert (Str.matchQuoted d = Some r →
          (∀ r' post', String c d = Str.quoted r' +:+ post' →
                       r' ≠ EmptyString → Str.count Str.dquote r' = 0 →
                       False) →
          ∃ pre post,
            String c d = pre +:+ Str.quoted r +:+ post
            ∧ ∀ pre' r' post',
                String c d = pre' +:+ Str.quoted r' +:+ post' →
                r' ≠ EmptyString → Str.count Str.dquote r' = 0 →
                String.length pre ≤ String.length pre') as Hrec.
  { intros (pre & post & -> & Hmin)%IH Hhead.
    exists (String c pre), post. split; [done|].
    intros [|c' pre'] r' post' Hd Hr' Hc'.
    - exfalso. by eapply Hhead.
    - rewrite append_cons in Hd. injection Hd as -> Hd.
      simpl. apply le_n_S. by eapply Hmin. }
  case_decide as Hc.
  - subst c. destruct (Str.spanNoQuote d) as [run rest] eqn:Hspan.
    assert (∀ r' post',
              String Str.dquote d = Str.quoted r' +:+ post' →
              r' ≠ EmptyString → Str.count Str.dquote r' = 0 →
              run = r' ∧ rest = String Str.dquote post') as Hhead.
    { intros r' post' Hd Hr' Hc'. rewrite quoted_append in Hd.
      injection Hd as ->. rewrite spanNoQuote_app in Hspan by done.
      by injection Hspan as <- <-. }
    destruct run as [|r0 run];
      [intros Hm; apply Hrec; [done|]; intros r' post' Hd Hr' Hc';
       by destruct (Hhead r' post' Hd Hr' Hc') as [<- _]|].
    destruct rest as [|q rest];
      [intros Hm; apply Hrec; [done|]; intros r' post' Hd Hr' Hc';
       by destruct (Hhead r' post' Hd Hr' Hc') as [_ ?]|].
    intros [= <-].
    apply spanNoQuote_spec in Hspan as (-> & Hrun & [?|[rest' [= -> ->]]]);
      [done|].
    exists EmptyString, rest'. split; [by rewrite quoted_append|].
    intros; simpl; lia.
  - intros Hm. apply Hrec; [done|]. intros r' post' Hd _ _.
    rewrite quoted_append in Hd. by injection Hd as ->.
Qed.

(** There is a match as soon as the description holds such a run. *)
Lemma matchQuoted_complete r post : ∀ pre,
  r ≠ EmptyString → Str.count Str.dquote r = 0 →
  is_Some (Str.matchQuoted (pre +:+ Str.quoted r +:+ post)).
Proof.
  intros pre Hr Hcount. rewrite quoted_append.
  induction pre as [|c pre IH];
    [rewrite append_nil|rewrite append_cons]; simpl.
  - rewrite ?decide_True by done. rewrite spanNoQuote_app by done.
    destruct r; [done | by eexists].
  - case_decide; [|done].
    destruct (Str.spanNoQuote _) as [[|r0 run] [|q rest]];
      (done || by eexists).
Qed.

(** ** Recommendations *)

Lemma recommendAccount_push acc w :
  recommendAccount acc w = acc ++ accountAdvice w.
Proof.
  unfold accountAdvice, recommendAccount.
  destruct (Str.matchQuoted (description w)) as [account|];
    [destruct (truthy account)|]; by rewrite ?app_nil_r.
Qed.

(** The recommendations, block after block. *)
Lemma generateRecommendations_blocks warnings :
  generateRecommendations warnings
  = (if 0 <? countType account_overlap warnings
     then recAccountsGeneric
          :: flat_map accountAdvice
               (filter (fun w => type w = account_overlap) warnings)
     else [])
    ++ (if 0 <? countType username_reuse warnings then [recUsernames] else [])
    ++ (if 0 <? countType metadata_similarity warnings
        then [recMetadata] else [])
    ++ (if 0 <? length warnings then [recStyle; recTiming] else [recGreat]).
Proof.
  unfold generateRecommendations, countType.
  rewrite (foldl_push _ _ recommendAccount_push).
  repeat match goal with |- context [0 <? ?n] => destruct (0 <? n) end;
    simpl; by rewrite <- ?app_assoc.
Qed.

Lemma accountAdvice_match w :
  accountAdvice w
  = match Str.matchQuoted (description w) with
    | Some account => [recAccount account]
    | None => []
    end.
Proof.
  unfold accountAdvice, recommendAccount.
  destruct (Str.matchQuoted (description w)) as [account|] eqn:Hm; [|done].
  apply matchQuoted_sound in Hm as (Hne & _). by destruct account.
Qed.

Lemma advice_in_recommendations warnings w r :
  w ∈ warnings → type w = account_overlap → r ∈ accountAdvice w →
  r ∈ generateRecommendations warnings.
Proof.
  intros Hw Ht Hr. rewrite generateRecommendations_blocks.
  assert (w ∈ filter (fun w => type w = account_overlap) warnings) as Hin
    by (by apply list_elem_of_filter).
  apply elem_of_app. left.
  destruct (Nat.ltb_spec 0 (countType account_overlap warnings)) as [_|Hlen].
  - apply list_elem_of_further, list_elem_of_In, in_flat_map.
    exists w. by rewrite <- !list_elem_of_In.
  - unfold countType in Hlen.
    destruct (filter _ warnings); [by apply elem_of_nil in Hin|].
    simpl in Hlen. lia.
Qed.

(** C7, as the source has it: every warning of the overlap detector carries
    the account string between double quotes in its description; the
    recommendations hold, after the generic advice, at most one piece of
    advice per [account_overlap] warning, which names the first non-empty
    run without double quote that stands between two double quotes of the
    description: the run between the first two double quotes when that run
    is not empty; a description without such a run, one without double
    quote in particular, gets no advice of its own.  For a warning that the
    detector made from an account that is not empty and holds no double
    quote, the advice names that account. *)
Theorem recommendations_name_account :
  (∀ personas w, w ∈ detectAccountOverlaps personas →
     type w = account_overlap
     ∧ ∃ account,
         description w
         = "Account " +:+ Str.quoted account
           +:+ " is used in multiple personas"
         ∧ affectedPersonas w = valuesOf (accountEntries personas) account
         ∧ ∃ persona, persona ∈ personas
                      ∧ account ∈ accounts (privateData persona))
  ∧ (∀ warnings,
       generateRecommendations warnings
       = (if 0 <? countType account_overlap warnings
          then recAccountsGeneric
               :: flat_map accountAdvice
                    (filter (fun w => type w = account_overlap) warnings)
          else [])
         ++ (if 0 <? countType username_reuse warnings
             then [recUsernames] else [])
         ++ (if 0 <? countType metadata_similarity warnings
             then [recMetadata] else [])
         ++ (if 0 <? length warnings
             then [recStyle; recTiming] else [recGreat]))
  ∧ (∀ w, accountAdvice w = []
          ∨ ∃ r pre post,
              accountAdvice w = [recAccount r]
              ∧ r ≠ EmptyString ∧ Str.count Str.dquote r = 0
              ∧ description w = pre +:+ Str.quoted r +:+ post
              ∧ ∀ pre' r' post',
                  description w = pre' +:+ Str.quoted r' +:+ post' →
                  r' ≠ EmptyString → Str.count Str.dquote r' = 0 →
                  String.length pre ≤ String.length pre')
  ∧ (∀ w pre r post,
       description w = pre +:+ Str.quoted r +:+ post →
       r ≠ EmptyString → Str.count Str.dquote r = 0 →
       accountAdvice w ≠ []
       ∧ (Str.count Str.dquote pre = 0 → accountAdvice w = [recAccount r]))
  ∧ (∀ w, Str.count Str.dquote (description w) = 0 → accountAdvice w = [])
  ∧ (∀ personas w account,
       w ∈ detectAccountOverlaps personas →
       description w = overlapDescription account →
       account ≠ EmptyString → Str.count Str.dquote account = 0 →
       accountAdvice w = [recAccount account]
       ∧ recAccount account
         ∈ generateRecommendations (detectAccountOverlaps personas)).
Proof.
  split; [|split; [|split; [|split; [|split]]]].
  - intros personas w (account & -> & _ & Hp)%detectAccountOverlaps_elem.
    split; [done|]. by exists account.
  - apply generateRecommendations_blocks.
  - intros w. rewrite accountAdvice_match.
    destruct (Str.matchQuoted (description w)) as [r|] eqn:Hm; [|by left].
    right. destruct (matchQuoted_leftmost _ _ Hm) as (pre & post & Hd & Hmin).
    apply matchQuoted_sound in Hm as (Hr & Hc & _). by exists r, pre, post.
  - intros w pre r post Hd Hr Hc. rewrite accountAdvice_match, Hd. split.
    + by destruct (matchQuoted_complete r post pre Hr Hc) as [r' ->].
    + intros Hpre. by rewrite matchQuoted_first.
  - intros w Hc. by rewrite accountAdvice_match, matchQuoted_none.
  - intros personas w account Hw Hd Hne Hc.
    assert (accountAdvice w = [recAccount account]) as Hadv.
    { rewrite accountAdvice_match, Hd. unfold overlapDescription.
      by rewrite matchQuoted_first. }
    split; [done|].
    apply (advice_in_recommendations _ w); [done | |].
    + by apply detectAccountOverlaps_elem in Hw as (? & -> & _).
    + rewrite Hadv. apply list_elem_of_here.
Qed.

Lemma recommendations_name_account_witness :
  accountAdvice (overlapWarning "x:@a" ["P1"; "P2"]) = [recAccount "x:@a"]
  ∧ recAccount "x:@a"
    ∈ generateRecommendations
        (detectAccountOverlaps [mkPersona "P1" ["x:@a"] EmptyString;
                                mkPersona "P2" ["x:@a"] EmptyString]).
Proof.
  apply (proj2 (proj2 (proj2 (proj2 (proj2 recommendations_name_account))))
           [mkPersona "P1" ["x:@a"] EmptyString;
            mkPersona "P2" ["x:@a"] EmptyString]
           (overlapWarning "x:@a" ["P1"; "P2"]) "x:@a").
  - vm_compute. apply list_elem_of_here.
  - reflexivity.
  - discriminate.
  - reflexivity.
Defined.

(** C7, as the specification states it, fails: the two personas of
    [quotePersonas]
    share an account that holds a double quote; the detector warns about
    it, and the recommendations name the part of the account before the
    double quote, not the account.  The two personas of
    [emptyAccountPersonas] share the empty account; the detector warns
    about it, and the recommendations name no account. *)
Lemma recommendations_name_account_counterexample :
  detectAccountOverlaps quotePersonas
  = [overlapWarning quoteAccount ["P1"; "P2"]]
  ∧ generateRecommendations (detectAccountOverlaps quotePersonas)
    = [recAccountsGeneric; recAccount "x:a"; recStyle; recTiming]
  ∧ (recAccount quoteAccount
     ∉ generateRecommendations (detectAccountOverlaps quotePersonas))
  ∧ detectAccountOverlaps emptyAccountPersonas
    = [overlapWarning EmptyString ["P1"; "P2"]]
  ∧ generateRecommendations (detectAccountOverlaps emptyAccountPersonas)
    = [recAccountsGeneric; recStyle; recTiming].
Proof.
  split; [by vm_compute|]. split; [by vm_compute|].
  split; [|split; by vm_compute].
  intros Hin. vm_compute in Hin.
  repeat (apply elem_of_cons in Hin as [Hin|Hin]; [discriminate Hin|]).
  by apply elem_of_nil in Hin.
Qed.

(** ** Graph transform *)

Lemma chars_substring n : ∀ s,
  Str.chars (String.substring 0 n s) = take n (Str.chars s).
Proof.
  induction n as [|n IH]; intros [|c s]; simpl; try done.
  by rewrite <- IH.
Qed.

Lemma substring_short n : ∀ s, String.length s ≤ n → String.substring 0 n s = s.
Proof.
  induction n as [|n IH]; intros [|c s] Hs; simpl in *; try done; [lia|].
  rewrite IH; [done | lia].
Qed.

Lemma warningLinks_pairs warning :
  warningLinks warning = map (mkLink warning) (pairs (affectedPersonas warning)).
Proof.
  unfold warningLinks, warningPairs.
  rewrite (forPairs_pairs (fun x y => [(x, y)])) by done. simpl.
  induction (pairs (affectedPersonas warning)) as [|[x y] l IH]; simpl;
    [done | by rewrite IH].
Qed.

(** C8: the graph has one node per persona, in order, with the persona's
    id, the number of its accounts, and as label the first 8 characters of
    the id (the whole id when it has at most 8); each warning contributes
    one link per pair of positions [i < j] of its [affectedPersonas], with
    the warning's type and severity, and the links of the warnings are
    concatenated without merging; a warning that names 3 personas gives
    exactly 3 links. *)
Theorem generatePrivacyGraph_spec personas warnings :
  let g := generatePrivacyGraph personas warnings in
  length (nodes g) = length personas
  ∧ (∀ k persona, personas !! k = Some persona →
       ∃ node, nodes g !! k = Some node
         ∧ node_id node = id persona
         ∧ node_accounts node = length (accounts (privateData persona))
         ∧ Str.chars (node_label node) = take 8 (Str.chars (id persona))
         ∧ (String.length (id persona) ≤ 8 → node_label node = id persona))
  ∧ links g
    = flat_map (fun warning =>
                  map (mkLink warning) (pairs (affectedPersonas warning)))
               warnings
  ∧ (∀ warning link,
       link ∈ links (generatePrivacyGraph personas [warning])
       ↔ ∃ i j s t, i < j
           ∧ affectedPersonas warning !! i = Some s
           ∧ affectedPersonas warning !! j = Some t
           ∧ link = {| source := s; target := t;
                       link_type := type warning;
                       link_severity := severity warning |})
  ∧ (∀ more, links (generatePrivacyGraph personas (warnings ++ more))
             = links g ++ links (generatePrivacyGraph personas more))
  ∧ (∀ warning,
       2 * length (links (generatePrivacyGraph personas [warning]))
       = length (affectedPersonas warning)
         * (length (affectedPersonas warning) - 1))
  ∧ (∀ warning, length (affectedPersonas warning) = 3 →
       length (links (generatePrivacyGraph personas [warning])) = 3).
Proof.
  assert (∀ warning,
            links (generatePrivacyGraph personas [warning])
            = map (mkLink warning) (pairs (affectedPersonas warning))) as Hone
    by (intros w; simpl; by rewrite app_nil_r, warningLinks_pairs).
  assert (∀ warning,
       2 * length (links (generatePrivacyGraph personas [warning]))
       = length (affectedPersonas warning)
         * (length (affectedPersonas warning) - 1)) as Hcount
    by (intros w; rewrite Hone, length_map; apply length_pairs).
  cbv zeta. split; [|split; [|split; [|split; [|split; [|split]]]]].
  - apply length_map.
  - intros k persona Hk. exists (personaNode persona).
    split; [simpl; by rewrite lookup_map, Hk|].
    repeat split; simpl.
    + apply chars_substring.
    + apply substring_short.
  - simpl. apply flat_map_ext. intros w. apply warningLinks_pairs.
  - intros w l. rewrite Hone. split.
    + intros Hin.
      apply list_elem_of_In, in_map_iff in Hin as ([s t] & <- & Hst).
      apply list_elem_of_In, elem_of_pairs in Hst as (i & j & Hij & Hi & Hj).
      by exists i, j, s, t.
    + intros (i & j & s & t & Hij & Hi & Hj & ->).
      apply list_elem_of_In, in_map_iff. exists (s, t). split; [done|].
      apply list_elem_of_In, elem_of_pairs. by exists i, j.
  - intros more. simpl. apply flat_map_app.
  - apply Hcount.
  - intros w H3. specialize (Hcount w). rewrite H3 in Hcount. simpl in *. lia.
Qed.

Lemma generatePrivacyGraph_spec_witness :
  (∃ node,
     nodes (generatePrivacyGraph [mkPersona "persona-0001" ["x:@a"] "n"] [])
       !! 0 = Some node
     ∧ node_id node = "persona-0001"
     ∧ node_accounts node = 1
     ∧ Str.chars (node_label node) = take 8 (Str.chars "persona-0001")
     ∧ (String.length "persona-0001" ≤ 8 → node_label node = "persona-0001"))
  ∧ length (links (generatePrivacyGraph []
              [{| type := account_overlap; description := EmptyString;
                  severity := high;
                  affectedPersonas := ["P1"; "P2"; "P3"] |}]))
    = 3.
Proof.
  split.
  - apply (proj1 (proj2 (generatePrivacyGraph_spec
                           [mkPersona "persona-0001" ["x:@a"] "n"] []))
             0 (mkPersona "persona-0001" ["x:@a"] "n")).
    reflexivity.
  - apply (proj2 (proj2 (proj2 (proj2 (proj2 (proj2
             (generatePrivacyGraph_spec [] []))))))).
    reflexivity.
Defined.

(** C10: the graph transform does not check the warnings against the
    personas: there are inputs where a warning names an id that no persona
    has, and the returned links then hold an edge whose endpoints match no
    returned node. *)
Theorem generatePrivacyGraph_dangling :
  ∃ personas warnings warning link,
    warning ∈ warnings
    ∧ (∃ pid, pid ∈ affectedPersonas warning
              ∧ ∀ persona, persona ∈ personas → id persona ≠ pid)
    ∧ link ∈ links (generatePrivacyGraph personas warnings)
    ∧ ((∀ node, node ∈ nodes (generatePrivacyGraph personas warnings) →
                node_id node ≠ source link)
       ∨ (∀ node, node ∈ nodes (generatePrivacyGraph personas warnings) →
                  node_id node ≠ target link)).
Proof.
  set (p1 := {| id := "P1"; publicKey := EmptyString;
                privateData := {| accounts := []; signedProofs := [];
                                  notes := EmptyString |};
                createdAt := EmptyString; isPublic := false;
                name := EmptyString |}).
  set (w := {| type := account_overlap; description := EmptyString;
               severity := high; affectedPersonas := ["P1"; "ghost"] |}).
  exists [p1], [w], w, (mkLink w ("P1", "ghost")).
  split; [apply list_elem_of_here|]. split; [|split].
  - exists "ghost". split; [apply list_elem_of_further, list_elem_of_here|].
    intros persona ->%list_elem_of_singleton. discriminate.
  - apply list_elem_of_here.
  - right. intros node ->%list_elem_of_singleton. discriminate.
Qed.

(** ** The exact model and binary64 *)

(** On every triple of sub-scores that [calculatePrivacyScore] can form,
    the binary64 weighted sum is exactly the rational one: twice the sum is
    the integer [(5 a + 3 u + 2 m) / 5].  [Math.round] is then applied to
    the same number in the source and in the model. *)
Lemma weightedSum_binary64 :
  forallb (fun '(a, u, m) =>
             PrimFloat.eqb (2 * weightedSumFloat (fl a) (fl u) (fl m))%float
                           (fl ((5 * a + 3 * u + 2 * m) / 5))
             && ((5 * a + 3 * u + 2 * m) mod 5 =? 0)%Z)
          subScoreTriples
  = true.
Proof. vm_compute. reflexivity. Qed.

(** For every length up to 300 and every distance up to the length, the
    binary64 comparisons with the two thresholds of the source give what
    the exact comparisons give; at the boundaries, [1 - 3/10] is the
    binary64 number [0.7] and [1 - 1/2] is [0.5].  Beyond 300 the two
    comparisons can only differ when the similarity is above a threshold
    by less than [2^-52], which needs a length above [2^48]. *)
Lemma thresholds_binary64 :
  forallb (fun '(d, m) =>
             Bool.eqb (aboveFloat d m 0.7) (aboveExact d m (7 # 10))
             && Bool.eqb (aboveFloat d m 0.5) (aboveExact d m (1 # 2)))
          (ratios 300)
  = true.
Proof. vm_compute. reflexivity. Qed.


(** * Further properties *)

(** ** What the warnings of the analysis hold *)

Lemma detectMetadataSimilarities_pairs personas :
  detectMetadataSimilarities personas
  = flat_map (fun '(pa, pb) => metadataStep [] pa pb) (pairs personas).
Proof.
  unfold detectMetadataSimilarities.
  by rewrite (forPairs_pairs (metadataStep []) metadataStep metadataStep_push).
Qed.

Lemma metadataStep_elem pa pb w :
  w ∈ metadataStep [] pa pb →
  w = metadataWarning pa pb
  ∧ notes (privateData pa) ≠ EmptyString
  ∧ notes (privateData pb) ≠ EmptyString
  ∧ gt_num (calculateStringSimilarity
              (Str.toLowerCase (notes (privateData pa)))
              (Str.toLowerCase (notes (privateData pb)))) (1 # 2) = true.
Proof.
  unfold metadataStep.
  destruct (truthy (Str.toLowerCase (notes (privateData pa)))) eqn:Ha;
    [|by intros ?%elem_of_nil].
  destruct (truthy (Str.toLowerCase (notes (privateData pb)))) eqn:Hb;
    [|by intros ?%elem_of_nil].
  simpl. destruct (gt_num _ _) eqn:Hgt; [|by intros ?%elem_of_nil].
  intros ->%list_elem_of_singleton.
  apply truthy_spec in Ha, Hb. rewrite toLowerCase_empty in Ha, Hb. done.
Qed.

Lemma detectMetadataSimilarities_elem personas w :
  w ∈ detectMetadataSimilarities personas →
  ∃ pa pb, (pa, pb) ∈ pairs personas ∧ w ∈ metadataStep [] pa pb.
Proof.
  rewrite detectMetadataSimilarities_pairs, list_elem_of_In, in_flat_map.
  intros ([pa pb] & Hin & Hw). exists pa, pb.
  by rewrite !list_elem_of_In.
Qed.

Lemma detectUsernamePatterns_elem personas w :
  w ∈ detectUsernamePatterns personas →
  ∃ u v,
    (u, v) ∈ pairs (dedup (map fst (usernameEntries personas)))
    ∧ gt_num (calculateStringSimilarity u v) (7 # 10) = true
    ∧ w = {| type := username_reuse;
             description := usernameDescription u v;
             severity := medium;
             affectedPersonas :=
               dedup (valuesOf (usernameEntries personas) u
                      ++ valuesOf (usernameEntries personas) v) |}.
Proof.
  rewrite detectUsernamePatterns_pairs, list_elem_of_In, in_flat_map.
  intros ([u v] & Hin & Hw). exists u, v.
  destruct (gt_num _ _); [|done]. destruct Hw as [<-|[]].
  by rewrite list_elem_of_In.
Qed.

Lemma analyzePrivacy_elem personas w :
  w ∈ analyzePrivacy personas
  ↔ 2 ≤ length personas
    ∧ (w ∈ detectAccountOverlaps personas
       ∨ w ∈ detectUsernamePatterns personas
       ∨ w ∈ detectMetadataSimilarities personas).
Proof.
  unfold analyzePrivacy.
  destruct (Nat.leb_spec (length personas) 1) as [Hle|Hlt].
  - rewrite elem_of_nil. split; [done | lia].
  - simpl. rewrite !elem_of_app. split; [intros; split; [lia | tauto]|].
    intros [_ ?]. tauto.
Qed.

Lemma valuesOf_persona keysOf personas k pid :
  pid ∈ valuesOf (personaEntries keysOf personas) k →
  ∃ persona, persona ∈ personas ∧ id persona = pid.
Proof.
  intros (persona & a & Hp & Hid & _)%valuesOf_elem%elem_of_personaEntries.
  by exists persona.
Qed.

(** X1: every warning of the analysis has the severity of its detector:
    high for an account overlap, medium for a username reuse, low for a
    metadata similarity. *)
Theorem analyzePrivacy_severity (personas : list Persona) (w : PrivacyWarning) :
  w ∈ analyzePrivacy personas →
  (type w = account_overlap ∧ severity w = high)
  ∨ (type w = username_reuse ∧ severity w = medium)
  ∨ (type w = metadata_similarity ∧ severity w = low).
Proof.
  intros [_ [Hw|[Hw|Hw]]]%analyzePrivacy_elem.
  - apply detectAccountOverlaps_elem in Hw as (account & -> & _). by left.
  - apply detectUsernamePatterns_elem in Hw as (u & v & _ & _ & ->).
    right. by left.
  - apply detectMetadataSimilarities_elem in Hw as (pa & pb & _ & Hw).
    apply metadataStep_elem in Hw as (-> & _). right. by right.
Qed.

Lemma analyzePrivacy_severity_witness :
  (type (overlapWarning "x:@a" ["P1"; "P2"]) = account_overlap
   ∧ severity (overlapWarning "x:@a" ["P1"; "P2"]) = high)
  ∨ (type (overlapWarning "x:@a" ["P1"; "P2"]) = username_reuse
     ∧ severity (overlapWarning "x:@a" ["P1"; "P2"]) = medium)
  ∨ (type (overlapWarning "x:@a" ["P1"; "P2"]) = metadata_similarity
     ∧ severity (overlapWarning "x:@a" ["P1"; "P2"]) = low).
Proof.
  apply (analyzePrivacy_severity
           [mkPersona "P1" ["x:@a"] EmptyString;
            mkPersona "P2" ["x:@a"] EmptyString]).
  vm_compute. apply list_elem_of_here.
Defined.

(** X2: the analysis names no persona of its own: every id in the
    [affectedPersonas] of a warning is the id of a persona of the input. *)
Theorem analyzePrivacy_ids (personas : list Persona) (w : PrivacyWarning)
    (pid : string) :
  w ∈ analyzePrivacy personas → pid ∈ affectedPersonas w →
  ∃ persona, persona ∈ personas ∧ id persona = pid.
Proof.
  intros [_ [Hw|[Hw|Hw]]]%analyzePrivacy_elem Hpid.
  - apply detectAccountOverlaps_elem in Hw as (account & -> & _).
    simpl in Hpid. unfold accountEntries in Hpid.
    by eapply valuesOf_persona.
  - apply detectUsernamePatterns_elem in Hw as (u & v & _ & _ & ->).
    simpl in Hpid. unfold usernameEntries in Hpid.
    apply dedup_elem, elem_of_app in Hpid as [Hpid|Hpid];
      by eapply valuesOf_persona.
  - apply detectMetadataSimilarities_elem in Hw as (pa & pb & Hin & Hw).
    apply metadataStep_elem in Hw as (-> & _).
    apply pairs_elems in Hin as [Ha Hb]. simpl in Hpid.
    apply elem_of_cons in Hpid as [->|Hpid]; [by exists pa|].
    apply list_elem_of_singleton in Hpid as ->. by exists pb.
Qed.

Lemma analyzePrivacy_ids_witness :
  ∃ persona,
    persona ∈ [mkPersona "P1" ["x:@a"] EmptyString;
               mkPersona "P2" ["x:@a"] EmptyString]
    ∧ id persona = "P2".
Proof.
  apply (analyzePrivacy_ids _ (overlapWarning "x:@a" ["P1"; "P2"])).
  - vm_compute. apply list_elem_of_here.
  - simpl. apply list_elem_of_further, list_elem_of_here.
Defined.

(** ** The graph of an analysis *)

Lemma links_elem personas warnings link :
  link ∈ links (generatePrivacyGraph personas warnings) →
  ∃ w s t,
    w ∈ warnings ∧ (s, t) ∈ pairs (affectedPersonas w)
    ∧ link = mkLink w (s, t).
Proof.
  simpl. rewrite list_elem_of_In, in_flat_map. intros (w & Hw & Hin).
  rewrite warningLinks_pairs in Hin.
  apply in_map_iff in Hin as ([s t] & <- & Hst). exists w, s, t.
  by rewrite !list_elem_of_In.
Qed.

Lemma nodes_elem personas warnings persona :
  persona ∈ personas →
  ∃ node, node ∈ nodes (generatePrivacyGraph personas warnings)
          ∧ node_id node = id persona.
Proof.
  intros Hp. exists (personaNode persona). split; [|done].
  simpl. apply list_elem_of_In, in_map. by apply list_elem_of_In.
Qed.

(** X3: the graph of an analysis is closed: when the warnings are those
    that [analyzePrivacy] returns for the same personas, both ends of every
    link are nodes of the graph. *)
Theorem analysis_graph_closed (personas : list Persona) (link : GraphLink) :
  link ∈ links (generatePrivacyGraph personas (analyzePrivacy personas)) →
  (∃ node, node ∈ nodes (generatePrivacyGraph personas
                           (analyzePrivacy personas))
           ∧ node_id node = source link)
  ∧ (∃ node, node ∈ nodes (generatePrivacyGraph personas
                             (analyzePrivacy personas))
             ∧ node_id node = target link).
Proof.
  intros (w & s & t & Hw & [Hs Ht]%pairs_elems & ->)%links_elem.
  assert (∀ pid, pid ∈ affectedPersonas w →
                 ∃ persona, persona ∈ personas ∧ id persona = pid) as Hids.
  { intros pid Hpid.
    apply analyzePrivacy_elem in Hw as [_ [Hw|[Hw|Hw]]].
    - apply detectAccountOverlaps_elem in Hw as (account & -> & _).
      simpl in Hpid. unfold accountEntries in Hpid.
      by eapply valuesOf_persona.
    - apply detectUsernamePatterns_elem in Hw as (u & v & _ & _ & ->).
      simpl in Hpid. unfold usernameEntries in Hpid.
      apply dedup_elem, elem_of_app in Hpid as [Hpid|Hpid];
        by eapply valuesOf_persona.
    - apply detectMetadataSimilarities_elem in Hw as (pa & pb & Hin & Hw).
      apply metadataStep_elem in Hw as (-> & _).
      apply pairs_elems in Hin as [Ha Hb]. simpl in Hpid.
      apply elem_of_cons in Hpid as [->|Hpid]; [by exists pa|].
      apply list_elem_of_singleton in Hpid as ->. by exists pb. }
  split.
  - destruct (Hids s Hs) as (persona & Hp & <-). by apply nodes_elem.
  - destruct (Hids t Ht) as (persona & Hp & <-). by apply nodes_elem.
Qed.

Lemma analysis_graph_closed_witness :
  (∃ node, node ∈ nodes (generatePrivacyGraph
                           [mkPersona "P1" ["x:@a"] EmptyString;
                            mkPersona "P2" ["x:@a"] EmptyString]
                           (analyzePrivacy
                              [mkPersona "P1" ["x:@a"] EmptyString;
                               mkPersona "P2" ["x:@a"] EmptyString]))
           ∧ node_id node = "P1")
  ∧ (∃ node, node ∈ nodes (generatePrivacyGraph
                             [mkPersona "P1" ["x:@a"] EmptyString;
                              mkPersona "P2" ["x:@a"] EmptyString]
                             (analyzePrivacy
                                [mkPersona "P1" ["x:@a"] EmptyString;
                                 mkPersona "P2" ["x:@a"] EmptyString]))
             ∧ node_id node = "P2").
Proof.
  apply (analysis_graph_closed
           [mkPersona "P1" ["x:@a"] EmptyString;
            mkPersona "P2" ["x:@a"] EmptyString]
           {| source := "P1"; target := "P2";
              link_type := account_overlap; link_severity := high |}).
  vm_compute. apply list_elem_of_here.
Defined.

(** ** Personas with distinct ids and duplicate-free accounts *)

Lemma valuesOf_app es1 es2 k :
  valuesOf (es1 ++ es2) k = valuesOf es1 k ++ valuesOf es2 k.
Proof. unfold valuesOf. by rewrite filter_app, map_app. Qed.

Lemma valuesOf_cons k0 v0 es k :
  valuesOf ((k0, v0) :: es) k
  = (if decide (k0 = k) then [v0] else []) ++ valuesOf es k.
Proof. unfold valuesOf. rewrite filter_cons. simpl. by case_decide. Qed.

Lemma valuesOf_one_persona pid accs k :
  NoDup accs →
  valuesOf (flat_map (fun account => map (fun a => (a, pid)) [account]) accs) k
  `sublist_of` [pid].
Proof.
  induction accs as [|a accs IH]; intros Hnd; simpl.
  - apply sublist_nil_l.
  - apply NoDup_cons in Hnd as [Ha Hnd]. rewrite valuesOf_cons.
    case_decide as Hk; simpl; [|by apply IH].
    subst a. rewrite valuesOf_nil; [done|].
    intros Hin. apply Ha.
    apply list_elem_of_In, in_map_iff in Hin as ([k' v] & <- & Hin).
    apply in_flat_map in Hin as (a & Hacc & [[= -> _]|[]]).
    by apply list_elem_of_In.
Qed.

Lemma valuesOf_accounts_sublist personas k :
  (∀ persona, persona ∈ personas → NoDup (accounts (privateData persona))) →
  valuesOf (accountEntries personas) k `sublist_of` map id personas.
Proof.
  induction personas as [|persona personas IH]; intros Hnd.
  - apply sublist_nil_l.
  - unfold accountEntries, personaEntries in *. simpl.
    rewrite valuesOf_app.
    apply (sublist_app _ [id persona] _ (map id personas)).
    + apply valuesOf_one_persona, Hnd, list_elem_of_here.
    + apply IH. intros p Hp. by apply Hnd, list_elem_of_further.
Qed.

Lemma pairs_ids_distinct personas pa pb :
  NoDup (map id personas) → (pa, pb) ∈ pairs personas → id pa ≠ id pb.
Proof.
  intros Hnd (i & j & Hij & Hi & Hj)%elem_of_pairs Heq.
  assert (map id personas !! i = Some (id pa)) as Hi'
    by (by rewrite lookup_map, Hi).
  assert (map id personas !! j = Some (id pa)) as Hj'
    by (by rewrite lookup_map, Hj, Heq).
  pose proof (NoDup_lookup _ _ _ _ Hnd Hi' Hj'). lia.
Qed.

Lemma analyzePrivacy_NoDup personas w :
  NoDup (map id personas) →
  (∀ persona, persona ∈ personas → NoDup (accounts (privateData persona))) →
  w ∈ analyzePrivacy personas → NoDup (affectedPersonas w).
Proof.
  intros Hids Haccs [_ [Hw|[Hw|Hw]]]%analyzePrivacy_elem.
  - apply detectAccountOverlaps_elem in Hw as (account & -> & _). simpl.
    apply (sublist_NoDup _ (map id personas));
      [done | by apply valuesOf_accounts_sublist].
  - apply detectUsernamePatterns_elem in Hw as (u & v & _ & _ & ->).
    apply dedup_NoDup.
  - apply detectMetadataSimilarities_elem in Hw as (pa & pb & Hin & Hw).
    apply metadataStep_elem in Hw as (-> & _). simpl.
    apply NoDup_cons. split; [|apply NoDup_singleton].
    intros ?%list_elem_of_singleton. by eapply pairs_ids_distinct.
Qed.

(** X4: when the personas have pairwise distinct ids and no persona lists
    an account twice, no warning of the analysis names a persona twice, and
    no link of the graph of the analysis joins a persona to itself. *)
Theorem analysis_distinct_personas (personas : list Persona) :
  NoDup (map id personas) →
  (∀ persona, persona ∈ personas → NoDup (accounts (privateData persona))) →
  (∀ w, w ∈ analyzePrivacy personas → NoDup (affectedPersonas w))
  ∧ (∀ link,
       link ∈ links (generatePrivacyGraph personas (analyzePrivacy personas)) →
       source link ≠ target link).
Proof.
  intros Hids Haccs. split.
  - intros w. by apply analyzePrivacy_NoDup.
  - intros link (w & s & t & Hw & Hst & ->)%links_elem. simpl.
    eapply pairs_distinct; [|done]. by eapply analyzePrivacy_NoDup.
Qed.

Lemma analysis_distinct_personas_witness :
  (∀ w, w ∈ analyzePrivacy [mkPersona "P1" ["x:@a"; "y:@b"] "note";
                            mkPersona "P2" ["x:@a"] "note"] →
        NoDup (affectedPersonas w))
  ∧ (∀ link,
       link ∈ links (generatePrivacyGraph
                       [mkPersona "P1" ["x:@a"; "y:@b"] "note";
                        mkPersona "P2" ["x:@a"] "note"]
                       (analyzePrivacy
                          [mkPersona "P1" ["x:@a"; "y:@b"] "note";
                           mkPersona "P2" ["x:@a"] "note"])) →
       source link ≠ target link).
Proof.
  apply (analysis_distinct_personas
           [mkPersona "P1" ["x:@a"; "y:@b"] "note";
            mkPersona "P2" ["x:@a"] "note"]).
  - apply (bool_decide_unpack _). vm_compute. exact I.
  - intros persona [->|Hp]%elem_of_cons.
    + apply (bool_decide_unpack _). vm_compute. exact I.
    + apply list_elem_of_singleton in Hp as ->.
      apply (bool_decide_unpack _). vm_compute. exact I.
Defined.

(** ** One warning per shared account *)

Lemma map_fst_accountEntries personas :
  map fst (accountEntries personas) = allAccounts personas.
Proof.
  unfold accountEntries, personaEntries, allAccounts.
  induction personas as [|persona personas IH]; simpl; [done|].
  rewrite map_app. f_equal; [|exact IH].
  induction (accounts (privateData persona)) as [|a accs IHa]; simpl;
    [done | by rewrite IHa].
Qed.

Lemma length_valuesOf entries k :
  length (valuesOf entries k)
  = length (filter (fun a => a = k) (map fst entries)).
Proof.
  induction entries as [|[k0 v0] entries IH]; [done|].
  rewrite valuesOf_cons. simpl. rewrite filter_cons. simpl.
  case_decide; simpl; by rewrite IH.
Qed.

Lemma length_valuesOf_accounts personas account :
  length (valuesOf (accountEntries personas) account)
  = occurrences account personas.
Proof. by rewrite length_valuesOf, map_fst_accountEntries. Qed.

Lemma overlaps_of_keys (f : string → list string) (l : list string) :
  flat_map (fun '(account, personaIds) =>
              if 1 <? length personaIds
              then [overlapWarning account personaIds] else [])
           (map (fun k => (k, f k)) l)
  = map (fun a => overlapWarning a (f a))
        (filter (fun a => 2 ≤ length (f a)) l).
Proof.
  induction l as [|k l IH]; [done|]. simpl. rewrite IH, filter_cons.
  destruct (Nat.ltb_spec 1 (length (f k))).
  - by rewrite decide_True by lia.
  - by rewrite decide_False by lia.
Qed.

Lemma detectAccountOverlaps_map personas :
  detectAccountOverlaps personas
  = map (fun a => overlapWarning a (valuesOf (accountEntries personas) a))
        (filter (fun a => 2 ≤ occurrences a personas)
                (dedup (allAccounts personas))).
Proof.
  rewrite detectAccountOverlaps_grouped. unfold grouped.
  rewrite overlaps_of_keys, map_fst_accountEntries. f_equal.
  apply list_filter_iff. intros a. by rewrite length_valuesOf_accounts.
Qed.

Lemma chars_append (s1 s2 : string) :
  Str.chars (s1 +:+ s2) = Str.chars s1 ++ Str.chars s2.
Proof.
  unfold Str.chars. induction s1 as [|c s1 IH]; [done|].
  rewrite append_cons. simpl. by rewrite IH.
Qed.

Lemma append_inv_tail (s1 s2 t : string) : s1 +:+ t = s2 +:+ t → s1 = s2.
Proof.
  intros H. apply chars_inj.
  apply (f_equal Str.chars) in H. rewrite !chars_append in H.
  by apply app_inv_tail in H.
Qed.

Lemma overlapDescription_inj a b :
  overlapDescription a = overlapDescription b → a = b.
Proof.
  unfold overlapDescription. intros H.
  apply (inj (String.append "Account ")) in H.
  rewrite !quoted_append in H. injection H as H.
  by apply append_inv_tail in H.
Qed.

Lemma NoDup_map_inj {A B} (f : A → B) (l : list A) :
  (∀ x y, f x = f y → x = y) → NoDup l → NoDup (map f l).
Proof.
  intros Hf. induction 1 as [|x l Hx Hnd IH]; simpl; constructor; [|done].
  intros Hin. apply list_elem_of_In, in_map_iff in Hin as (y & Hy & Hin).
  apply Hf in Hy as ->. by apply Hx, list_elem_of_In.
Qed.

Lemma NoDup_occurrences (l : list string) :
  NoDup l ↔ ∀ x, length (filter (fun a => a = x) l) ≤ 1.
Proof.
  induction l as [|a l IH].
  - split; [intros _ x; simpl; lia | intros; constructor].
  - split.
    + intros [Ha Hnd]%NoDup_cons x. rewrite filter_cons.
      case_decide as Hx; [|by apply IH].
      subst x. simpl.
      destruct (filter (fun a0 => a0 = a) l) as [|y ys] eqn:Hf; [done|].
      exfalso. apply Ha.
      assert (y ∈ filter (fun a0 => a0 = a) l) as Hy
        by (rewrite Hf; apply list_elem_of_here).
      by apply list_elem_of_filter in Hy as [-> ?].
    + intros Hall. apply NoDup_cons. split.
      * specialize (Hall a). rewrite filter_cons, decide_True in Hall by done.
        simpl in Hall. intros Ha.
        assert (a ∈ filter (fun a0 => a0 = a) l) as Hin
          by (by apply list_elem_of_filter).
        destruct (filter (fun a0 => a0 = a) l); [by apply elem_of_nil in Hin|].
        simpl in Hall. lia.
      * apply IH. intros x. specialize (Hall x). rewrite filter_cons in Hall.
        case_decide; simpl in Hall; lia.
Qed.

(** X5: the overlap detector returns exactly one warning for each account
    string that is listed at least twice over all personas, and none for
    the others; the warning lists as many ids as the account has
    occurrences.  It returns nothing exactly when no account string is
    listed twice. *)
Theorem detectAccountOverlaps_shared (personas : list Persona) :
  (∀ account,
     (∃ w, w ∈ detectAccountOverlaps personas
           ∧ description w = overlapDescription account)
     ↔ 2 ≤ occurrences account personas)
  ∧ NoDup (map description (detectAccountOverlaps personas))
  ∧ (∀ w account,
       w ∈ detectAccountOverlaps personas →
       description w = overlapDescription account →
       length (affectedPersonas w) = occurrences account personas)
  ∧ (detectAccountOverlaps personas = [] ↔ NoDup (allAccounts personas)).
Proof.
  assert (∀ w, w ∈ detectAccountOverlaps personas
               ↔ ∃ a, w = overlapWarning a
                            (valuesOf (accountEntries personas) a)
                      ∧ 2 ≤ occurrences a personas) as Helem.
  { intros w. rewrite detectAccountOverlaps_map, list_elem_of_In, in_map_iff.
    split.
    - intros (a & <- & Ha). exists a. split; [done|].
      by apply list_elem_of_In, list_elem_of_filter in Ha as [? _].
    - intros (a & -> & Ha). exists a. split; [done|].
      apply list_elem_of_In, list_elem_of_filter. split; [done|].
      apply dedup_elem. unfold occurrences in Ha.
      destruct (filter (fun a0 => a0 = a) (allAccounts personas)) as [|y ys]
        eqn:Hf; [simpl in Ha; lia|].
      assert (y ∈ filter (fun a0 => a0 = a) (allAccounts personas)) as Hy
        by (rewrite Hf; apply list_elem_of_here).
      by apply list_elem_of_filter in Hy as [-> ?]. }
  split; [|split; [|split]].
  - intros account. split.
    + intros (w & (a & -> & Ha)%Helem & Hd). simpl in Hd.
      by apply overlapDescription_inj in Hd as ->.
    + intros Ha. eexists. split; [apply Helem; by exists account | done].
  - rewrite detectAccountOverlaps_map, map_map. simpl.
    apply NoDup_map_inj; [apply overlapDescription_inj|].
    apply NoDup_filter, dedup_NoDup.
  - intros w account (a & -> & Ha)%Helem Hd. simpl in Hd.
    apply overlapDescription_inj in Hd as ->. simpl.
    apply length_valuesOf_accounts.
  - rewrite NoDup_occurrences. split.
    + intros Hnil x. destruct (Nat.le_gt_cases (occurrences x personas) 1)
        as [?|Hx]; [done|].
      assert (overlapWarning x (valuesOf (accountEntries personas) x)
              ∈ detectAccountOverlaps personas) as Hin
        by (apply Helem; by exists x).
      rewrite Hnil in Hin. by apply elem_of_nil in Hin.
    + intros Hall.
      destruct (detectAccountOverlaps personas) as [|w ws]; [done|].
      assert (w ∈ w :: ws) as Hin by apply list_elem_of_here.
      apply Helem in Hin as (a & _ & Ha). specialize (Hall a).
      unfold occurrences in Ha. lia.
Qed.

Lemma detectAccountOverlaps_shared_witness :
  length (affectedPersonas (overlapWarning "x:@a" ["P1"; "P2"]))
  = occurrences "x:@a" [mkPersona "P1" ["x:@a"] EmptyString;
                        mkPersona "P2" ["x:@a"; "y:@b"] EmptyString].
Proof.
  apply (proj1 (proj2 (proj2 (detectAccountOverlaps_shared
           [mkPersona "P1" ["x:@a"] EmptyString;
            mkPersona "P2" ["x:@a"; "y:@b"] EmptyString])))).
  - vm_compute. apply list_elem_of_here.
  - reflexivity.
Defined.

(** ** The distance of the similarity engine is a metric *)

Lemma edit_length a b n :
  edit a b n → length a ≤ length b + n ∧ length b ≤ length a + n.
Proof. induction 1; simpl; lia. Qed.

Lemma cost_triangle (x y z : ascii) :
  (if decide (x = z) then 0 else 1)
  ≤ (if decide (x = y) then 0 else 1) + (if decide (y = z) then 0 else 1).
Proof. repeat case_decide; try lia. congruence. Qed.

Lemma edit_trans a b n :
  edit a b n → ∀ c m, edit b c m → ∃ k, k ≤ n + m ∧ edit a c k.
Proof.
  induction 1 as [|x a b n _ IH|y a b n _ IH|x y a b n _ IH]; intros c m H2.
  - exists m. split; [lia | done].
  - destruct (IH c m H2) as (k & Hk & He).
    exists (S k). split; [lia | by apply edit_del].
  - remember (y :: b) as l eqn:Hl.
    induction H2 as [|x' a' b' n' H2 _|y' a' b' n' H2 IH2|x' y' a' b' n' H2 _].
    + done.
    + injection Hl as -> ->. destruct (IH b' n' H2) as (k & Hk & He).
      exists k. split; [lia | done].
    + destruct (IH2 Hl) as (k & Hk & He).
      exists (S k). split; [lia | by apply edit_ins].
    + injection Hl as -> ->. destruct (IH b' n' H2) as (k & Hk & He).
      exists (S k). split; [lia | by apply edit_ins].
  - remember (y :: b) as l eqn:Hl.
    induction H2 as [|x' a' b' n' H2 _|y' a' b' n' H2 IH2|x' y' a' b' n' H2 _].
    + done.
    + injection Hl as -> ->. destruct (IH b' n' H2) as (k & Hk & He).
      exists (S k). split; [lia | by apply edit_del].
    + destruct (IH2 Hl) as (k & Hk & He).
      exists (S k). split; [lia | by apply edit_ins].
    + injection Hl as -> ->. destruct (IH b' n' H2) as (k & Hk & He).
      exists (k + if decide (x = y') then 0 else 1). split.
      * pose proof (cost_triangle x y y'). lia.
      * by apply edit_sub.
Qed.

Lemma lev_triangle a b c : lev a c ≤ lev a b + lev b c.
Proof.
  destruct (edit_trans _ _ _ (lev_edit a b) _ _ (lev_edit b c))
    as (k & Hk & He).
  apply lev_least in He. lia.
Qed.

(** X6: the distance that [calculateStringSimilarity] reads from its
    matrix is a metric on strings: it is zero exactly between equal
    strings, it is symmetric, and it satisfies the triangle inequality.  It
    lies between the difference of the two lengths and the larger
    length. *)
Theorem levenshteinDistance_metric (a b c : string) :
  (levenshteinDistance a b = 0 ↔ a = b)
  ∧ levenshteinDistance a b = levenshteinDistance b a
  ∧ levenshteinDistance a c
    ≤ levenshteinDistance a b + levenshteinDistance b c
  ∧ String.length a - String.length b ≤ levenshteinDistance a b
  ∧ String.length b - String.length a ≤ levenshteinDistance a b
  ∧ levenshteinDistance a b ≤ Nat.max (String.length a) (String.length b).
Proof.
  rewrite !levenshteinDistance_lev.
  pose proof (edit_length _ _ _ (lev_edit (Str.chars a) (Str.chars b))) as Hl.
  rewrite !length_chars in Hl.
  split; [|split; [|split; [|split; [|split]]]].
  - rewrite lev_zero. split; [apply chars_inj | by intros ->].
  - apply lev_sym.
  - apply lev_triangle.
  - lia.
  - lia.
  - rewrite <- !length_chars. apply lev_le_max.
Qed.

Lemma levenshteinDistance_metric_witness :
  levenshteinDistance "kitten" "kitten" = 0.
Proof.
  apply (proj2 (proj1 (levenshteinDistance_metric "kitten" "kitten" ""))).
  reflexivity.
Defined.

(** ** The thresholds, in whole numbers *)

Lemma ratio_lt (n : Z) (q : positive) (d m : nat) :
  0 < m →
  ((n # q) < 1 - inject_Z (Z.of_nat d) / inject_Z (Z.of_nat m))%Q
  ↔ (n * Z.of_nat m + Zpos q * Z.of_nat d < Zpos q * Z.of_nat m)%Z.
Proof.
  intros Hm. destruct m as [|m]; [lia|].
  replace (Z.of_nat (S m)) with (Zpos (Pos.of_succ_nat m)) by lia.
  rewrite <- Qmake_Qdiv. unfold Qlt, Qminus, Qplus, Qopp. simpl. lia.
Qed.

Lemma lev_empty a b :
  String.length a = 0 ∨ String.length b = 0 →
  lev (Str.chars a) (Str.chars b)
  = Nat.max (String.length a) (String.length b).
Proof.
  intros [Ha|Hb].
  - destruct a; [|done]. simpl. by rewrite length_chars.
  - destruct b; [|done]. rewrite lev_nil_r, length_chars. simpl. lia.
Qed.

Lemma similarity_above (n : Z) (q : positive) (a b : string) :
  (0 <= n < Zpos q)%Z →
  gt_num (calculateStringSimilarity a b) (n # q) = true
  ↔ a = b
    ∨ (n * Z.of_nat (Nat.max (String.length a) (String.length b))
       + Zpos q * Z.of_nat (levenshteinDistance a b)
       < Zpos q * Z.of_nat (Nat.max (String.length a) (String.length b)))%Z.
Proof.
  intros Hn. rewrite gt_num_spec, levenshteinDistance_lev.
  destruct (decide (a = b)) as [->|Hne].
  - unfold calculateStringSimilarity. rewrite decide_True by done.
    split; [by left|]. intros _. unfold Qlt. simpl. lia.
  - destruct (decide (String.length a = 0 ∨ String.length b = 0)) as [H0|H0].
    + rewrite similarity_empty, lev_empty by done. split.
      * unfold Qlt. simpl. lia.
      * intros [?|?]; [done | nia].
    + rewrite similarity_unequal by (done || lia).
      rewrite ratio_lt by lia. split; [by right|]. by intros [?|?].
Qed.

(** X7: the two comparisons of the detectors, in whole numbers: a
    similarity is above 0.7 exactly when the strings are equal or ten times
    their distance is below three times the larger length, and above 0.5
    exactly when the strings are equal or twice their distance is below the
    larger length. *)
Theorem similarity_thresholds (a b : string) :
  (gt_num (calculateStringSimilarity a b) (7 # 10) = true
   ↔ a = b
     ∨ 10 * levenshteinDistance a b
       < 3 * Nat.max (String.length a) (String.length b))
  ∧ (gt_num (calculateStringSimilarity a b) (1 # 2) = true
     ↔ a = b
       ∨ 2 * levenshteinDistance a b
         < Nat.max (String.length a) (String.length b)).
Proof.
  split.
  - rewrite (similarity_above 7 10) by lia.
    split; (intros [?|?]; [by left | right; lia]).
  - rewrite (similarity_above 1 2) by lia.
    split; (intros [?|?]; [by left | right; lia]).
Qed.

Lemma similarity_thresholds_witness :
  gt_num (calculateStringSimilarity "alice123" "alice124") (7 # 10) = true
  ∧ gt_num (calculateStringSimilarity "Born in Paris" "Born in Parma") (1 # 2)
    = true.
Proof.
  split.
  - apply (proj2 (proj1 (similarity_thresholds "alice123" "alice124"))).
    right. vm_compute. lia.
  - apply (proj2 (proj2 (similarity_thresholds "Born in Paris"
                           "Born in Parma"))).
    right. vm_compute. lia.
Defined.

(** X8: two different strings whose lengths differ by 30% or more of the
    larger length never have a similarity above 0.7, whatever their
    characters: the username detector cannot pair them. *)
Theorem similarity_length_gap (a b : string) :
  a ≠ b →
  3 * Nat.max (String.length a) (String.length b)
  ≤ 10 * (Nat.max (String.length a) (String.length b)
          - Nat.min (String.length a) (String.length b)) →
  gt_num (calculateStringSimilarity a b) (7 # 10) = false.
Proof.
  intros Hne Hgap. apply not_true_iff_false.
  rewrite (similarity_above 7 10) by lia. intros [?|Hlt]; [done|].
  rewrite levenshteinDistance_lev in Hlt.
  pose proof (edit_length _ _ _ (lev_edit (Str.chars a) (Str.chars b))) as Hl.
  rewrite !length_chars in Hl. lia.
Qed.

Lemma similarity_length_gap_witness :
  gt_num (calculateStringSimilarity "alice" "alice123") (7 # 10) = false.
Proof.
  apply similarity_length_gap.
  - discriminate.
  - simpl. lia.
Defined.

(** ** How the score moves with the warnings *)

Lemma countType_app t ws more :
  countType t (ws ++ more) = countType t ws + countType t more.
Proof. unfold countType. by rewrite filter_app, length_app. Qed.

Lemma countType_total ws :
  length ws
  = countType account_overlap ws + countType username_reuse ws
    + countType metadata_similarity ws.
Proof.
  induction ws as [|w ws IH]; [done|].
  rewrite !countType_cons. simpl. rewrite IH.
  destruct (type w); repeat case_decide; try done; lia.
Qed.

Lemma countType_pos t ws : 0 < countType t ws ↔ ∃ w, w ∈ ws ∧ type w = t.
Proof.
  unfold countType. split.
  - destruct (filter (fun w => type w = t) ws) as [|w l] eqn:Hf;
      [simpl; lia|].
    intros _. exists w. apply and_comm, (list_elem_of_filter (fun w => type w = t)).
    rewrite Hf. apply list_elem_of_here.
  - intros (w & Hw & Ht).
    assert (w ∈ filter (fun w => type w = t) ws) as Hin
      by (by apply list_elem_of_filter).
    destruct (filter (fun w => type w = t) ws);
      [by apply elem_of_nil in Hin | simpl; lia].
Qed.

Lemma score_counts ws :
  score (calculatePrivacyScore ws)
  = ((5 * Z.max 0 (100 - Z.of_nat (countType account_overlap ws) * 50)
      + 3 * Z.max 0 (100 - Z.of_nat (countType username_reuse ws) * 25)
      + 2 * Z.max 0 (100 - Z.of_nat (countType metadata_similarity ws) * 15)
      + 5) / 10)%Z.
Proof. apply weighted_round. Qed.

Lemma gradeOf_top (s : Z) : gradeOf s = "A+" ↔ (95 <= s)%Z.
Proof.
  unfold gradeOf.
  repeat (match goal with
          | |- context [(?x <? ?y)%Z] => destruct (Z.ltb_spec x y)
          end); split; (done || lia).
Qed.

(** X9: more warnings never help: when warnings are added to a list, the
    score and the three sub-scores stay or go down. *)
Theorem calculatePrivacyScore_monotone (ws more : list PrivacyWarning) :
  (score (calculatePrivacyScore (ws ++ more))
   <= score (calculatePrivacyScore ws))%Z
  ∧ (accountIsolation (calculatePrivacyScore (ws ++ more))
     <= accountIsolation (calculatePrivacyScore ws))%Z
  ∧ (usernameUniqueness (calculatePrivacyScore (ws ++ more))
     <= usernameUniqueness (calculatePrivacyScore ws))%Z
  ∧ (metadataSeparation (calculatePrivacyScore (ws ++ more))
     <= metadataSeparation (calculatePrivacyScore ws))%Z.
Proof.
  rewrite !score_counts. simpl. rewrite !countType_app.
  split; [apply Z.div_le_mono|]; lia.
Qed.

(** X10: the score does not depend on the order of the warnings. *)
Theorem calculatePrivacyScore_permutation (ws ws' : list PrivacyWarning) :
  ws ≡ₚ ws' → calculatePrivacyScore ws = calculatePrivacyScore ws'.
Proof.
  intros Hp.
  assert (∀ t, countType t ws = countType t ws') as Hc
    by (intros t; unfold countType; by rewrite Hp).
  unfold calculatePrivacyScore. by rewrite !Hc.
Qed.

Lemma calculatePrivacyScore_permutation_witness :
  calculatePrivacyScore [overlapWarning "a" []; usernameWarning [] "u" "v"]
  = calculatePrivacyScore [usernameWarning [] "u" "v"; overlapWarning "a" []].
Proof.
  apply calculatePrivacyScore_permutation. apply Permutation_swap.
Defined.

(** X11: the score is 100 only without any warning, and the grade is A+
    exactly when there is no warning or a single metadata warning and
    nothing else. *)
Theorem calculatePrivacyScore_top (ws : list PrivacyWarning) :
  (score (calculatePrivacyScore ws) = 100%Z ↔ ws = [])
  ∧ (grade (calculatePrivacyScore ws) = "A+"
     ↔ countType account_overlap ws = 0
       ∧ countType username_reuse ws = 0
       ∧ countType metadata_similarity ws ≤ 1).
Proof.
  pose proof (countType_total ws) as Htot. split.
  - rewrite score_counts. split.
    + intros Hs. apply length_zero_iff_nil.
      revert Hs. Z.to_euclidean_division_equations. lia.
    + intros ->. reflexivity.
  - change (grade (calculatePrivacyScore ws))
      with (gradeOf (score (calculatePrivacyScore ws))).
    rewrite gradeOf_top, score_counts.
    Z.to_euclidean_division_equations. lia.
Qed.

Lemma calculatePrivacyScore_top_witness :
  grade (calculatePrivacyScore
           [metadataWarning (mkPersona "P1" [] "n") (mkPersona "P2" [] "n")])
  = "A+".
Proof.
  apply (proj2 (proj2 (calculatePrivacyScore_top _))).
  vm_compute. repeat split; lia.
Defined.

(** X12: what each kind of warning costs: with an account overlap the
    score is at most 75, with a username reuse at most 93, with a metadata
    similarity at most 97; the score is 0 exactly from two overlaps, four
    reuses and seven metadata similarities on, where the three sub-scores
    are all used up. *)
Theorem calculatePrivacyScore_caps (ws : list PrivacyWarning) :
  (0 < countType account_overlap ws →
   (score (calculatePrivacyScore ws) <= 75)%Z)
  ∧ (0 < countType username_reuse ws →
     (score (calculatePrivacyScore ws) <= 93)%Z)
  ∧ (0 < countType metadata_similarity ws →
     (score (calculatePrivacyScore ws) <= 97)%Z)
  ∧ (score (calculatePrivacyScore ws) = 0%Z
     ↔ 2 ≤ countType account_overlap ws
       ∧ 4 ≤ countType username_reuse ws
       ∧ 7 ≤ countType metadata_similarity ws).
Proof.
  rewrite score_counts.
  repeat split; try intros; Z.to_euclidean_division_equations; lia.
Qed.

Lemma calculatePrivacyScore_caps_witness :
  (score (calculatePrivacyScore [overlapWarning "a" ["P1"; "P2"]]) <= 75)%Z
  ∧ (score (calculatePrivacyScore [usernameWarning [] "u" "v"]) <= 93)%Z
  ∧ (score (calculatePrivacyScore
              [metadataWarning (mkPersona "P1" [] "n")
                               (mkPersona "P2" [] "n")]) <= 97)%Z.
Proof.
  split; [|split].
  - apply (proj1 (calculatePrivacyScore_caps _)). vm_compute. lia.
  - apply (proj1 (proj2 (calculatePrivacyScore_caps _))). vm_compute. lia.
  - apply (proj1 (proj2 (proj2 (calculatePrivacyScore_caps _)))).
    vm_compute. lia.
Defined.

(** ** The risk level of the hook *)

Lemma someSeverity_spec s ws :
  someSeverity s ws = true ↔ ∃ w, w ∈ ws ∧ severity w = s.
Proof.
  unfold someSeverity. rewrite existsb_exists. split.
  - intros (w & Hw & Hs). exists w.
    split; [by apply list_elem_of_In | by apply bool_decide_eq_true in Hs].
  - intros (w & Hw & Hs). exists w.
    split; [by apply list_elem_of_In | by apply bool_decide_eq_true].
Qed.

Lemma analyzePrivacy_tied personas w :
  w ∈ analyzePrivacy personas →
  (severity w = high ↔ type w = account_overlap)
  ∧ (severity w = medium ↔ type w = username_reuse)
  ∧ (severity w = low ↔ type w = metadata_similarity).
Proof.
  intros [_ [Hw|[Hw|Hw]]]%analyzePrivacy_elem.
  - by apply detectAccountOverlaps_elem in Hw as (account & -> & _).
  - by apply detectUsernamePatterns_elem in Hw as (u & v & _ & _ & ->).
  - apply detectMetadataSimilarities_elem in Hw as (pa & pb & _ & Hw).
    by apply metadataStep_elem in Hw as (-> & _).
Qed.

Lemma someSeverity_analysis personas s t :
  (∀ w, w ∈ analyzePrivacy personas → severity w = s ↔ type w = t) →
  someSeverity s (analyzePrivacy personas) = true
  ↔ 0 < countType t (analyzePrivacy personas).
Proof.
  intros Htied. rewrite someSeverity_spec, countType_pos.
  split; intros (w & Hw & H); exists w; (split; [done|]); by apply Htied.
Qed.

(** X13: on the warnings of an analysis, the risk level of the hook says
    which detectors fired, and bounds the score: none exactly without
    warning (score 100); high exactly when the overlap detector fired
    (score at most 75); medium exactly when it did not and the username
    detector fired (score from 50 to 93); low exactly when only the
    metadata detector fired (score from 80 to 97). *)
Theorem getPrivacyRiskLevel_analysis (personas : list Persona) :
  let ws := analyzePrivacy personas in
  let s := score (calculatePrivacyScore ws) in
  (getPrivacyRiskLevel ws = risk_none ↔ ws = [])
  ∧ (getPrivacyRiskLevel ws = risk_high ↔ 0 < countType account_overlap ws)
  ∧ (getPrivacyRiskLevel ws = risk_medium
     ↔ countType account_overlap ws = 0 ∧ 0 < countType username_reuse ws)
  ∧ (getPrivacyRiskLevel ws = risk_low
     ↔ countType account_overlap ws = 0 ∧ countType username_reuse ws = 0
       ∧ 0 < countType metadata_similarity ws)
  ∧ (getPrivacyRiskLevel ws = risk_none → s = 100%Z)
  ∧ (getPrivacyRiskLevel ws = risk_high → (s <= 75)%Z)
  ∧ (getPrivacyRiskLevel ws = risk_medium → (50 <= s <= 93)%Z)
  ∧ (getPrivacyRiskLevel ws = risk_low → (80 <= s <= 97)%Z).
Proof.
  cbv zeta.
  pose proof (someSeverity_analysis personas high account_overlap
                (fun w Hw => proj1 (analyzePrivacy_tied personas w Hw)))
    as Hhigh.
  pose proof (someSeverity_analysis personas medium username_reuse
                (fun w Hw => proj1 (proj2 (analyzePrivacy_tied personas w Hw))))
    as Hmedium.
  pose proof (countType_total (analyzePrivacy personas)) as Htot.
  assert (analyzePrivacy personas = []
          ↔ length (analyzePrivacy personas) = 0) as Hnil
    by (by rewrite length_zero_iff_nil).
  rewrite Hnil, score_counts. unfold getPrivacyRiskLevel.
  destruct (Nat.eqb_spec (length (analyzePrivacy personas)) 0) as [H0|H0];
    [|destruct (someSeverity high (analyzePrivacy personas)) eqn:Hh;
      [|destruct (someSeverity medium (analyzePrivacy personas)) eqn:Hm]];
    try (apply Hhigh in Hh); try (apply not_true_iff_false in Hh;
                                  rewrite Hhigh in Hh);
    try (apply Hmedium in Hm); try (apply not_true_iff_false in Hm;
                                    rewrite Hmedium in Hm);
    (split; [|split; [|split; [|split; [|split; [|split; [|split]]]]]]);
    try (split; intros; try done; lia);
    try (intros; try done; Z.to_euclidean_division_equations; lia).
Qed.

Lemma getPrivacyRiskLevel_analysis_witness :
  (score (calculatePrivacyScore
            (analyzePrivacy [mkPersona "P1" ["x:@a"] EmptyString;
                             mkPersona "P2" ["x:@a"] EmptyString]))
   <= 75)%Z.
Proof.
  apply (proj1 (proj2 (proj2 (proj2 (proj2 (proj2
           (getPrivacyRiskLevel_analysis
              [mkPersona "P1" ["x:@a"] EmptyString;
               mkPersona "P2" ["x:@a"] EmptyString]))))))).
  reflexivity.
Defined.

(** ** The shape of the recommendations *)

Lemma recAccount_fresh r :
  recAccount r ≠ recAccountsGeneric ∧ recAccount r ≠ recUsernames
  ∧ recAccount r ≠ recMetadata ∧ recAccount r ≠ recStyle
  ∧ recAccount r ≠ recTiming ∧ recAccount r ≠ recGreat.
Proof.
  repeat split; intros H;
    apply (f_equal (String.substring 0 10)) in H; vm_compute in H;
    discriminate H.
Qed.

Lemma advice_elem l x :
  x ∈ flat_map accountAdvice l → ∃ r, x = recAccount r.
Proof.
  rewrite list_elem_of_In, in_flat_map. intros (w & _ & Hx).
  rewrite accountAdvice_match in Hx.
  destruct (Str.matchQuoted (description w)) as [r|]; [|done].
  destruct Hx as [<-|[]]. by exists r.
Qed.

Lemma length_advice l : length (flat_map accountAdvice l) ≤ length l.
Proof.
  induction l as [|w l IH]; [done|]. simpl. rewrite length_app.
  rewrite accountAdvice_match.
  destruct (Str.matchQuoted (description w)); simpl; lia.
Qed.

Lemma recommendations_elem warnings x :
  x ∈ generateRecommendations warnings
  ↔ (0 < countType account_overlap warnings
     ∧ (x = recAccountsGeneric
        ∨ x ∈ flat_map accountAdvice
                (filter (fun w => type w = account_overlap) warnings)))
    ∨ (0 < countType username_reuse warnings ∧ x = recUsernames)
    ∨ (0 < countType metadata_similarity warnings ∧ x = recMetadata)
    ∨ (0 < length warnings ∧ (x = recStyle ∨ x = recTiming))
    ∨ (length warnings = 0 ∧ x = recGreat).
Proof.
  rewrite generateRecommendations_blocks.
  destruct (Nat.ltb_spec 0 (countType account_overlap warnings));
    destruct (Nat.ltb_spec 0 (countType username_reuse warnings));
    destruct (Nat.ltb_spec 0 (countType metadata_similarity warnings));
    destruct (Nat.ltb_spec 0 (length warnings)) as [Hlen|Hlen];
    try apply Nat.le_0_r in Hlen;
    rewrite ?elem_of_app, ?elem_of_cons, ?elem_of_nil;
    (split; [tauto|]);
    intros [[? ?]|[[? ?]|[[? ?]|[[? ?]|[? ?]]]]]; (lia || tauto).
Qed.

Lemma length_recommendations warnings :
  length (generateRecommendations warnings)
  ≤ 5 + countType account_overlap warnings.
Proof.
  rewrite generateRecommendations_blocks.
  pose proof (length_advice
                (filter (fun w => type w = account_overlap) warnings)) as Hlen.
  fold (countType account_overlap warnings) in Hlen.
  repeat match goal with |- context [0 <? ?n] => destruct (0 <? n) end;
    simpl; rewrite ?length_app; simpl; lia.
Qed.

(** X14: the shape of the recommendations: the praise is there exactly
    when there is no warning, and is then alone; with a warning the list
    ends with the two general pieces of advice; the generic advice of a
    detector is there exactly when a warning of its type is; and the list
    has at most five entries plus one per overlap warning. *)
Theorem generateRecommendations_shape (warnings : list PrivacyWarning) :
  (recGreat ∈ generateRecommendations warnings ↔ warnings = [])
  ∧ (warnings = [] → generateRecommendations warnings = [recGreat])
  ∧ (warnings ≠ [] →
     ∃ front, generateRecommendations warnings
              = front ++ [recStyle; recTiming])
  ∧ (recAccountsGeneric ∈ generateRecommendations warnings
     ↔ 0 < countType account_overlap warnings)
  ∧ (recUsernames ∈ generateRecommendations warnings
     ↔ 0 < countType username_reuse warnings)
  ∧ (recMetadata ∈ generateRecommendations warnings
     ↔ 0 < countType metadata_similarity warnings)
  ∧ length (generateRecommendations warnings)
    ≤ 5 + countType account_overlap warnings.
Proof.
  assert (∀ x, x ∈ flat_map accountAdvice
                     (filter (fun w => type w = account_overlap) warnings) →
               x ≠ recAccountsGeneric ∧ x ≠ recUsernames ∧ x ≠ recMetadata
               ∧ x ≠ recStyle ∧ x ≠ recTiming ∧ x ≠ recGreat) as Hfresh
    by (intros x [r ->]%advice_elem; apply recAccount_fresh).
  assert (warnings = [] ↔ length warnings = 0) as Hnil
    by (by rewrite length_zero_iff_nil).
  split; [|split; [|split; [|split; [|split; [|split]]]]].
  - rewrite recommendations_elem, Hnil. split; [|tauto].
    intros [[_ [?|Hin]]|[[_ ?]|[[_ ?]|[[_ [?|?]]|[? _]]]]];
      try done. by destruct (Hfresh _ Hin) as (? & ? & ? & ? & ? & ?).
  - by intros ->.
  - intros Hne. rewrite generateRecommendations_blocks.
    destruct (Nat.ltb_spec 0 (length warnings)) as [_|Hlen];
      [|by destruct warnings; [|simpl in Hlen; lia]].
    eexists. by rewrite !app_assoc.
  - rewrite recommendations_elem. split; [|tauto].
    intros [[? _]|[[_ ?]|[[_ ?]|[[_ [?|?]]|[_ ?]]]]]; done.
  - rewrite recommendations_elem. split; [|tauto].
    intros [[_ [?|Hin]]|[[? _]|[[_ ?]|[[_ [?|?]]|[_ ?]]]]];
      try done. by destruct (Hfresh _ Hin) as (? & ? & ? & ? & ? & ?).
  - rewrite recommendations_elem. split; [|tauto].
    intros [[_ [?|Hin]]|[[_ ?]|[[? _]|[[_ [?|?]]|[_ ?]]]]];
      try done. by destruct (Hfresh _ Hin) as (? & ? & ? & ? & ? & ?).
  - apply length_recommendations.
Qed.

Lemma generateRecommendations_shape_witness :
  generateRecommendations [] = [recGreat]
  ∧ ∃ front,
      generateRecommendations [overlapWarning "x:@a" ["P1"; "P2"]]
      = front ++ [recStyle; recTiming].
Proof.
  split.
  - apply (proj1 (proj2 (generateRecommendations_shape []))). reflexivity.
  - apply (proj1 (proj2 (proj2 (generateRecommendations_shape _)))).
    discriminate.
Defined.

(** ** Similar notes and similar usernames are not missed *)

Lemma metadataStep_fires pa pb :
  notes (privateData pa) ≠ EmptyString →
  notes (privateData pb) ≠ EmptyString →
  gt_num (calculateStringSimilarity
            (Str.toLowerCase (notes (privateData pa)))
            (Str.toLowerCase (notes (privateData pb)))) (1 # 2) = true →
  metadataStep [] pa pb = [metadataWarning pa pb].
Proof.
  intros Ha Hb Hgt. unfold metadataStep.
  assert (truthy (Str.toLowerCase (notes (privateData pa))) = true) as ->
    by (apply truthy_spec; by rewrite toLowerCase_empty).
  assert (truthy (Str.toLowerCase (notes (privateData pb))) = true) as ->
    by (apply truthy_spec; by rewrite toLowerCase_empty).
  simpl. by rewrite Hgt.
Qed.

(** X15: two personas whose notes are not empty and, once lowercased, are
    equal or closer than half the larger length, always get a metadata
    warning from the analysis, whatever the other personas are. *)
Theorem analyzePrivacy_similar_notes (personas : list Persona) (i j : nat)
    (pa pb : Persona) :
  i < j → personas !! i = Some pa → personas !! j = Some pb →
  notes (privateData pa) ≠ EmptyString →
  notes (privateData pb) ≠ EmptyString →
  Str.toLowerCase (notes (privateData pa))
  = Str.toLowerCase (notes (privateData pb))
  ∨ 2 * levenshteinDistance (Str.toLowerCase (notes (privateData pa)))
                            (Str.toLowerCase (notes (privateData pb)))
    < Nat.max (String.length (Str.toLowerCase (notes (privateData pa))))
              (String.length (Str.toLowerCase (notes (privateData pb)))) →
  metadataWarning pa pb ∈ analyzePrivacy personas.
Proof.
  intros Hij Hi Hj Ha Hb Hclose. apply analyzePrivacy_elem. split.
  - apply lookup_lt_Some in Hj. lia.
  - right. right. rewrite detectMetadataSimilarities_pairs.
    apply list_elem_of_In, in_flat_map. exists (pa, pb). split.
    + apply list_elem_of_In, elem_of_pairs. by exists i, j.
    + rewrite metadataStep_fires; [by left | done | done |].
      apply (similarity_above 1 2); [lia|].
      destruct Hclose as [?|?]; [by left | right; lia].
Qed.

Lemma analyzePrivacy_similar_notes_witness :
  metadataWarning (mkPersona "P1" [] "Born in Paris")
                  (mkPersona "P3" [] "born in PARIS")
  ∈ analyzePrivacy [mkPersona "P1" [] "Born in Paris";
                    mkPersona "P2" [] EmptyString;
                    mkPersona "P3" [] "born in PARIS"].
Proof.
  apply (analyzePrivacy_similar_notes _ 0 2).
  - lia.
  - reflexivity.
  - reflexivity.
  - discriminate.
  - discriminate.
  - left. reflexivity.
Defined.

Lemma usernames_elem personas u :
  u ∈ dedup (map fst (usernameEntries personas))
  ↔ ∃ persona account,
      persona ∈ personas ∧ account ∈ accounts (privateData persona)
      ∧ usernameOf account = Some u.
Proof.
  rewrite dedup_elem, list_elem_of_In, in_map_iff. split.
  - intros ([u' pid] & <- & Hin%list_elem_of_In).
    apply elem_of_personaEntries in Hin as (persona & a & Hp & _ & Ha & Hu).
    exists persona, a. by rewrite <- elem_of_usernameKeys.
  - intros (persona & a & Hp & Ha & Hu). exists (u, id persona).
    split; [done|]. apply list_elem_of_In, elem_of_personaEntries.
    exists persona, a. by rewrite elem_of_usernameKeys.
Qed.

Lemma similarity_above_sym (n : Z) (q : positive) (a b : string) :
  (0 <= n < Zpos q)%Z →
  gt_num (calculateStringSimilarity a b) (n # q)
  = gt_num (calculateStringSimilarity b a) (n # q).
Proof.
  intros Hn. apply eq_true_iff_eq.
  rewrite !(similarity_above n q) by done.
  rewrite !levenshteinDistance_lev, (lev_sym (Str.chars a)).
  rewrite (Nat.max_comm (String.length a)).
  split; (intros [?|?]; [by left | by right]).
Qed.

(** X16: the username detector misses no close pair: when two accounts,
    of the same persona or not, have different usernames whose distance,
    times ten, is below three times the larger length, some
    [username_reuse] warning names the holders of both accounts. *)
Theorem detectUsernamePatterns_complete (personas : list Persona)
    (pa pb : Persona) (a b u v : string) :
  pa ∈ personas → pb ∈ personas →
  a ∈ accounts (privateData pa) → b ∈ accounts (privateData pb) →
  usernameOf a = Some u → usernameOf b = Some v → u ≠ v →
  10 * levenshteinDistance u v
  < 3 * Nat.max (String.length u) (String.length v) →
  ∃ w, w ∈ detectUsernamePatterns personas
       ∧ type w = username_reuse
       ∧ id pa ∈ affectedPersonas w ∧ id pb ∈ affectedPersonas w.
Proof.
  intros Hpa Hpb Ha Hb Hu Hv Hne Hclose.
  assert (gt_num (calculateStringSimilarity u v) (7 # 10) = true) as Hgt
    by (apply (similarity_above 7 10); [lia | right; lia]).
  assert (id pa ∈ valuesOf (usernameEntries personas) u) as Hida.
  { apply valuesOf_elem, elem_of_personaEntries. exists pa, a.
    by rewrite elem_of_usernameKeys. }
  assert (id pb ∈ valuesOf (usernameEntries personas) v) as Hidb.
  { apply valuesOf_elem, elem_of_personaEntries. exists pb, b.
    by rewrite elem_of_usernameKeys. }
  assert (u ∈ dedup (map fst (usernameEntries personas))) as Hu'
    by (apply usernames_elem; by exists pa, a).
  assert (v ∈ dedup (map fst (usernameEntries personas))) as Hv'
    by (apply usernames_elem; by exists pb, b).
  rewrite detectUsernamePatterns_pairs.
  destruct (pairs_total _ _ _ Hu' Hv' Hne) as [Hin|Hin].
  - eexists. split.
    + apply list_elem_of_In, in_flat_map. exists (u, v).
      split; [by apply list_elem_of_In|]. rewrite Hgt. by left.
    + simpl. rewrite !dedup_elem, !elem_of_app. tauto.
  - eexists. split.
    + apply list_elem_of_In, in_flat_map. exists (v, u).
      split; [by apply list_elem_of_In|].
      rewrite (similarity_above_sym 7 10), Hgt by lia. by left.
    + simpl. rewrite !dedup_elem, !elem_of_app. tauto.
Qed.

Lemma detectUsernamePatterns_complete_witness :
  ∃ w, w ∈ detectUsernamePatterns
             [mkPersona "P1" ["x:alice123"] EmptyString;
              mkPersona "P2" ["y:Alice124"] EmptyString]
       ∧ type w = username_reuse
       ∧ "P1" ∈ affectedPersonas w ∧ "P2" ∈ affectedPersonas w.
Proof.
  apply (detectUsernamePatterns_complete
           [mkPersona "P1" ["x:alice123"] EmptyString;
            mkPersona "P2" ["y:Alice124"] EmptyString]
           (mkPersona "P1" ["x:alice123"] EmptyString)
           (mkPersona "P2" ["y:Alice124"] EmptyString)
           "x:alice123" "y:Alice124" "alice123" "alice124").
  - apply list_elem_of_here.
  - apply list_elem_of_further, list_elem_of_here.
  - apply list_elem_of_here.
  - apply list_elem_of_here.
  - reflexivity.
  - reflexivity.
  - discriminate.
  - vm_compute. lia.
Defined.

(** ** What the hook returns *)

Lemma score_perfect ws : score (calculatePrivacyScore ws) = 100%Z ↔ ws = [].
Proof.
  pose proof (countType_total ws) as Htot. rewrite score_counts. split.
  - intros Hs. apply length_zero_iff_nil.
    revert Hs. Z.to_euclidean_division_equations. lia.
  - intros ->. reflexivity.
Qed.

Lemma recGreat_elem ws : recGreat ∈ generateRecommendations ws ↔ ws = [].
Proof.
  rewrite recommendations_elem, <- length_zero_iff_nil. split; [|tauto].
  intros [[_ [?|Hin]]|[[_ ?]|[[_ ?]|[[_ [?|?]]|[? _]]]]]; try done.
  apply advice_elem in Hin as [r Hr]. symmetry in Hr.
  by apply recAccount_fresh in Hr.
Qed.

(** X17: the three results of [analyzePersonas] agree: the analysis found
    no warning exactly when the score is 100, exactly when the
    recommendations are the praise alone, and exactly when the risk level
    read from the warnings is none; and for at most one persona all of
    this holds. *)
Theorem analyzePersonas_consistent (personas : list Persona) :
  let r := analyzePersonas personas in
  (result_warnings r = [] ↔ score (result_score r) = 100%Z)
  ∧ (result_warnings r = [] ↔ result_recommendations r = [recGreat])
  ∧ (result_warnings r = []
     ↔ getPrivacyRiskLevel (result_warnings r) = risk_none)
  ∧ (length personas ≤ 1 →
     r = {| result_warnings := [];
            result_score :=
              {| score := 100; grade := "A+"; accountIsolation := 100;
                 usernameUniqueness := 100; metadataSeparation := 100 |};
            result_recommendations := [recGreat] |}).
Proof.
  cbv zeta. unfold analyzePersonas.
  cbn [result_warnings result_score result_recommendations].
  split; [|split; [|split]].
  - by rewrite score_perfect.
  - split; [by intros ->|]. intros Hr. apply recGreat_elem.
    rewrite Hr. apply list_elem_of_here.
  - unfold getPrivacyRiskLevel.
    destruct (analyzePrivacy personas) as [|w ws]; [done|]. simpl.
    split; [done|]. by repeat case_match.
  - intros Hlen. unfold analyzePrivacy.
    destruct (Nat.leb_spec (length personas) 1); [done | lia].
Qed.

Lemma analyzePersonas_consistent_witness :
  analyzePersonas [mkPersona "P1" ["x:@a"; "x:@a"] "note"]
  = {| result_warnings := [];
       result_score :=
         {| score := 100; grade := "A+"; accountIsolation := 100;
            usernameUniqueness := 100; metadataSeparation := 100 |};
       result_recommendations := [recGreat] |}.
Proof.
  apply (proj2 (proj2 (proj2 (analyzePersonas_consistent _)))).
  simpl. lia.
Defined.

(** ** More personas, more warnings *)

Lemma foldl_Set_add_prefix l : ∀ acc, ∃ extra, foldl Set_add acc l = acc ++ extra.
Proof.
  induction l as [|x l IH]; intros acc; simpl.
  - exists []. by rewrite app_nil_r.
  - unfold Set_add at 2. case_decide; [apply IH|].
    destruct (IH (acc ++ [x])) as [extra ->].
    exists (x :: extra). by rewrite <- app_assoc.
Qed.

Lemma dedup_app_prefix l l' : ∃ extra, dedup (l ++ l') = dedup l ++ extra.
Proof. unfold dedup. rewrite foldl_app. apply foldl_Set_add_prefix. Qed.

Lemma pairs_app_sublist {A} (l extra : list A) :
  pairs l `sublist_of` pairs (l ++ extra).
Proof.
  induction l as [|x l IH]; simpl; [apply sublist_nil_l|].
  apply sublist_app; [|done].
  rewrite map_app. apply sublist_inserts_r. done.
Qed.

Lemma length_filter_sublist {A} (P : A → Prop) `{∀ x, Decision (P x)}
    (l1 l2 : list A) :
  l1 `sublist_of` l2 → length (filter P l1) ≤ length (filter P l2).
Proof.
  induction 1 as [|x l1 l2 _ IH|x l1 l2 _ IH]; [done|..];
    rewrite ?filter_cons; repeat case_decide; simpl; lia.
Qed.

Lemma length_filter_mono {A} (P Q : A → Prop) `{∀ x, Decision (P x)}
    `{∀ x, Decision (Q x)} (l : list A) :
  (∀ x, P x → Q x) → length (filter P l) ≤ length (filter Q l).
Proof.
  intros HPQ. induction l as [|x l IH]; [done|].
  rewrite !filter_cons. repeat case_decide; simpl; try lia.
  exfalso. auto.
Qed.

Lemma length_flat_map_if {A B} (c : A → bool) (g : A → B) (l : list A) :
  length (flat_map (fun x => if c x then [g x] else []) l)
  = length (filter (fun x => c x = true) l).
Proof.
  induction l as [|x l IH]; [done|]. cbn [flat_map].
  rewrite filter_cons, length_app, IH.
  destruct (c x); case_decide; simpl; done.
Qed.

Lemma allAccounts_app ps more :
  allAccounts (ps ++ more) = allAccounts ps ++ allAccounts more.
Proof. apply flat_map_app. Qed.

Lemma length_overlaps_app ps more :
  length (detectAccountOverlaps ps)
  ≤ length (detectAccountOverlaps (ps ++ more)).
Proof.
  rewrite !detectAccountOverlaps_map, !length_map, allAccounts_app.
  destruct (dedup_app_prefix (allAccounts ps) (allAccounts more))
    as [extra ->].
  rewrite filter_app, length_app.
  etrans; [|apply Nat.le_add_r].
  apply length_filter_mono. intros a. unfold occurrences.
  rewrite allAccounts_app, filter_app, length_app. lia.
Qed.

Lemma length_usernames ps :
  length (detectUsernamePatterns ps)
  = length (filter (fun p => gt_num (calculateStringSimilarity p.1 p.2)
                                    (7 # 10) = true)
                   (pairs (dedup (map fst (usernameEntries ps))))).
Proof.
  rewrite detectUsernamePatterns_pairs.
  rewrite <- (length_flat_map_if
                (fun p => gt_num (calculateStringSimilarity p.1 p.2) (7 # 10))
                (fun p => usernameWarning (grouped (usernameEntries ps))
                            p.1 p.2)).
  f_equal. apply flat_map_ext_elem. intros [u v] [Hu Hv]%pairs_elems.
  simpl. destruct (gt_num _ _); [|done].
  unfold usernameWarning. by rewrite !Map_get_grouped.
Qed.

Lemma length_usernames_app ps more :
  length (detectUsernamePatterns ps)
  ≤ length (detectUsernamePatterns (ps ++ more)).
Proof.
  rewrite !length_usernames.
  unfold usernameEntries, personaEntries. rewrite flat_map_app, map_app.
  destruct (dedup_app_prefix
              (map fst (personaEntries usernameKeys ps))
              (map fst (personaEntries usernameKeys more))) as [extra Hd].
  unfold personaEntries in Hd. rewrite Hd.
  apply length_filter_sublist, pairs_app_sublist.
Qed.

Lemma metadataStep_if pa pb :
  metadataStep [] pa pb
  = if notesClose pa pb then [metadataWarning pa pb] else [].
Proof.
  unfold metadataStep, notesClose.
  destruct (truthy (Str.toLowerCase (notes (privateData pa))));
    destruct (truthy (Str.toLowerCase (notes (privateData pb)))); done.
Qed.

Lemma length_metadata ps :
  length (detectMetadataSimilarities ps)
  = length (filter (fun p => notesClose p.1 p.2 = true) (pairs ps)).
Proof.
  rewrite detectMetadataSimilarities_pairs.
  rewrite <- (length_flat_map_if (fun p => notesClose p.1 p.2)
                (fun p => metadataWarning p.1 p.2)).
  f_equal. apply flat_map_ext. intros [pa pb]. apply metadataStep_if.
Qed.

Lemma length_metadata_app ps more :
  length (detectMetadataSimilarities ps)
  ≤ length (detectMetadataSimilarities (ps ++ more)).
Proof.
  rewrite !length_metadata. apply length_filter_sublist, pairs_app_sublist.
Qed.

Lemma countType_all t t' l :
  (∀ w, w ∈ l → type w = t) →
  countType t' l = if decide (t = t') then length l else 0.
Proof.
  intros Hall. induction l as [|w l IH]; [by case_decide|].
  rewrite countType_cons, IH
    by (intros w' Hw'; by apply Hall, list_elem_of_further).
  rewrite (Hall w) by apply list_elem_of_here.
  repeat case_decide; simpl; congruence.
Qed.

Lemma countType_analysis t ps :
  2 ≤ length ps →
  countType t (analyzePrivacy ps)
  = match t with
    | account_overlap => length (detectAccountOverlaps ps)
    | username_reuse => length (detectUsernamePatterns ps)
    | metadata_similarity => length (detectMetadataSimilarities ps)
    end.
Proof.
  intros Hlen. unfold analyzePrivacy.
  destruct (Nat.leb_spec (length ps) 1); [lia|]. simpl.
  rewrite !countType_app.
  rewrite (countType_all account_overlap t (detectAccountOverlaps ps))
    by (by intros w (a & -> & _)%detectAccountOverlaps_elem).
  rewrite (countType_all username_reuse t (detectUsernamePatterns ps))
    by (by intros w (u & v & _ & _ & ->)%detectUsernamePatterns_elem).
  rewrite (countType_all metadata_similarity t
             (detectMetadataSimilarities ps)).
  - destruct t; repeat case_decide; try done; lia.
  - intros w (pa & pb & _ & Hw)%detectMetadataSimilarities_elem.
    by apply metadataStep_elem in Hw as (-> & _).
Qed.

Lemma countType_analysis_app t ps more :
  countType t (analyzePrivacy ps) ≤ countType t (analyzePrivacy (ps ++ more)).
Proof.
  destruct (Nat.le_gt_cases (length ps) 1) as [Hle|Hgt].
  - unfold analyzePrivacy at 1.
    destruct (Nat.leb_spec (length ps) 1);
      [unfold countType at 1; simpl; lia | lia].
  - rewrite !countType_analysis by (rewrite ?length_app; lia).
    destruct t;
      [apply length_overlaps_app | apply length_usernames_app
       | apply length_metadata_app].
Qed.

(** X18: more personas never help: when personas are added at the end of
    the list, the analysis returns at least as many warnings of each type,
    and the score of the analysis stays or goes down. *)
Theorem analysis_monotone (personas more : list Persona) :
  (∀ t, countType t (analyzePrivacy personas)
        ≤ countType t (analyzePrivacy (personas ++ more)))
  ∧ length (analyzePrivacy personas)
    ≤ length (analyzePrivacy (personas ++ more))
  ∧ (score (calculatePrivacyScore (analyzePrivacy (personas ++ more)))
     <= score (calculatePrivacyScore (analyzePrivacy personas)))%Z.
Proof.
  pose proof (countType_analysis_app account_overlap personas more).
  pose proof (countType_analysis_app username_reuse personas more).
  pose proof (countType_analysis_app metadata_similarity personas more).
  split; [intros t; apply countType_analysis_app|]. split.
  - rewrite !countType_total. lia.
  - rewrite !score_counts. apply Z.div_le_mono; lia.
Qed.

(** ** What the analyzer reads *)

Lemma personaEntries_strip keysOf personas :
  personaEntries keysOf (map strip personas) = personaEntries keysOf personas.
Proof.
  unfold personaEntries.
  induction personas as [|persona personas IH]; [done|].
  simpl. by rewrite IH.
Qed.

Lemma pairs_map {A B} (f : A → B) (l : list A) :
  pairs (map f l) = map (fun p => (f p.1, f p.2)) (pairs l).
Proof.
  induction l as [|x l IH]; [done|].
  simpl. by rewrite IH, map_app, !map_map.
Qed.

Lemma analyzePrivacy_strip personas :
  analyzePrivacy (map strip personas) = analyzePrivacy personas.
Proof.
  unfold analyzePrivacy. rewrite length_map.
  destruct (length personas <=? 1); [done|]. simpl. f_equal; [f_equal|].
  - rewrite !detectAccountOverlaps_grouped. unfold accountEntries.
    by rewrite personaEntries_strip.
  - rewrite !detectUsernamePatterns_pairs. unfold usernameEntries.
    by rewrite personaEntries_strip.
  - rewrite !detectMetadataSimilarities_pairs, pairs_map.
    induction (pairs personas) as [|[pa pb] l IH]; [done|].
    simpl. by rewrite IH.
Qed.

Lemma strip_readFields p q : readFields p = readFields q → strip p = strip q.
Proof. unfold readFields, strip. by intros [= -> -> ->]. Qed.

(** X19: the analysis reads the id, the accounts and the notes of a
    persona and nothing else: two lists of personas that agree on these
    three fields, persona by persona, get the same warnings, and the same
    graph for any warnings.  The public key, the name, the signed proofs,
    the date and the visibility of a persona change nothing. *)
Theorem analysis_reads (personas personas' : list Persona) :
  map readFields personas = map readFields personas' →
  analyzePrivacy personas = analyzePrivacy personas'
  ∧ ∀ warnings, generatePrivacyGraph personas warnings
                = generatePrivacyGraph personas' warnings.
Proof.
  intros Heq.
  assert (map strip personas = map strip personas') as Hstrip.
  { revert personas' Heq.
    induction personas as [|p ps IH]; intros [|q qs] Heq; try done.
    simpl in Heq.
    assert (readFields p = readFields q) as Hpq by congruence.
    assert (map readFields ps = map readFields qs) as Hrest by congruence.
    simpl. f_equal; [by apply strip_readFields | by apply IH]. }
  split.
  - by rewrite <- (analyzePrivacy_strip personas), Hstrip,
      analyzePrivacy_strip.
  - intros warnings. unfold generatePrivacyGraph, generateGraphData. f_equal.
    assert (map personaNode (map strip personas)
            = map personaNode (map strip personas')) as Hn by (by rewrite Hstrip).
    by rewrite !map_map in Hn.
Qed.

Lemma analysis_reads_witness :
  analyzePrivacy
    [{| id := "P1"; publicKey := "key-1";
        privateData := {| accounts := ["x:@a"]; signedProofs := ["proof"];
                          notes := "note" |};
        createdAt := "2024"; isPublic := true; name := "Alice" |};
     mkPersona "P2" ["x:@a"] "note"]
  = analyzePrivacy [mkPersona "P1" ["x:@a"] "note";
                    mkPersona "P2" ["x:@a"] "note"].
Proof.
  apply (analysis_reads
           [{| id := "P1"; publicKey := "key-1";
               privateData := {| accounts := ["x:@a"];
                                 signedProofs := ["proof"];
                                 notes := "note" |};
               createdAt := "2024"; isPublic := true; name := "Alice" |};
            mkPersona "P2" ["x:@a"] "note"]
           [mkPersona "P1" ["x:@a"] "note";
            mkPersona "P2" ["x:@a"] "note"]).
  reflexivity.
Defined.

(** ** Warnings that draw no link *)

Lemma pairs_nil {A} (l : list A) : pairs l = [] ↔ length l ≤ 1.
Proof.
  pose proof (length_pairs l) as Hlen. split.
  - intros Hp. rewrite Hp in Hlen. simpl in Hlen. nia.
  - intros Hl. destruct (pairs l); [done|]. simpl in Hlen. nia.
Qed.

(** X20: a warning puts a link in the graph only when it names at least
    two persona entries: the graph has no link at all exactly when every
    warning names at most one.  A username warning about two usernames of
    one persona is such a warning. *)
Theorem graph_without_links (personas : list Persona)
    (warnings : list PrivacyWarning) :
  links (generatePrivacyGraph personas warnings) = []
  ↔ ∀ w, w ∈ warnings → length (affectedPersonas w) ≤ 1.
Proof.
  simpl. induction warnings as [|w ws IH]; simpl.
  - split; [by intros _ w ?%elem_of_nil | done].
  - rewrite warningLinks_pairs. split.
    + intros [Hw Hws]%app_eq_nil w' [->|Hin]%elem_of_cons.
      * apply pairs_nil. by destruct (pairs (affectedPersonas w)).
      * by apply IH.
    + intros Hall.
      assert (pairs (affectedPersonas w) = []) as ->
        by (apply pairs_nil, Hall, list_elem_of_here).
      simpl. apply IH. intros w' Hw'. by apply Hall, list_elem_of_further.
Qed.

Lemma graph_without_links_witness :
  links (generatePrivacyGraph
           [mkPersona "P1" ["x:alice123"; "y:alice124"] EmptyString;
            mkPersona "P2" [] EmptyString]
           (analyzePrivacy
              [mkPersona "P1" ["x:alice123"; "y:alice124"] EmptyString;
               mkPersona "P2" [] EmptyString]))
  = [].
Proof.
  apply (proj2 (graph_without_links _ _)).
  intros w Hw. vm_compute in Hw.
  apply list_elem_of_singleton in Hw as ->. simpl. lia.
Defined.
